(** * c200-totp-seed-burner: the token protocol of [main.go]

    A shallow embedding of the token-level protocol of [main.go]: the
    XOR fold, the envelope built and checked by [Token.Transceive], the
    16-bit seed checksum, the keep-alive of [ScardTag.Transceive] and the
    two commands [GetInfo] and [BurnSeed].

    Conventions.
    - A Go [uint8] or [uint16] is a [Z]; wrap-around is written out with
      [mod 256] and [mod 65536] where the Go operation can overflow.
    - A [[]byte] value is a [list Z]; the [nil] slice and the empty slice
      are both [[]].
    - A Go call returns [(resp, err)] or panics with a run-time error; the
      three cases are the constructors of [outcome].
    - The card reader ([scard.Card.Transmit]) is a collaborator outside the
      repository: it is a parameter of the development. *)

From stdpp Require Import base list strings.
From Stdlib Require Import ZArith Lia.

Local Open Scope Z_scope.

(** ** Go values *)

Abbreviation bytes := (list Z).

(** Go's [error]: an error of the card library, or one made by
    [fmt.Errorf]. *)
Inductive error : Type :=
  | ScardError (code : Z)
  | Errorf (msg : string).

(** The run-time errors the protocol code can raise. *)
Inductive runtime_error : Type :=
  | IndexOutOfRange (i len : nat)
  | SliceBoundsOutOfRange (lo hi : nat).

(** What a call of signature [(resp []byte, err error)] does. *)
Inductive outcome : Type :=
  | Return (resp : bytes) (err : option error)
  | Panic (e : runtime_error).

(** [s[lo:hi]] on a slice whose bounds have been checked. *)
Definition subslice (lo hi : nat) (s : bytes) : bytes :=
  take (hi - lo)%nat (drop lo s).

(** ** [xor] (main.go 55-60) *)

(** [for _, v := range data { ret ^= v }], [ret] starting at 0. *)
Definition xor (data : bytes) : Z := fold_left Z.lxor data 0.

(** ** The envelope of [Token.Transceive] (main.go 63-65 and 70-76) *)

(** Lines 63-65: [[]byte{0x86, uint8(len(data) + 1)}], then [data], then
    [xor(data...)]. *)
Definition frame (data : bytes) : bytes :=
  [0x86; (Z.of_nat (length data) + 1) mod 256] ++ data ++ [xor data].

(** [2+resp[1]-1] is evaluated in [uint8]: both operations wrap. *)
Definition checksum_index (n : Z) : nat :=
  Z.to_nat (((2 + n) mod 256 - 1) mod 256).

(** Lines 70-76, on the reply [resp] of the tag. [resp[0]], [resp[1]] and
    [resp[2+resp[1]-1]] are index expressions and [resp[2:2+resp[1]-1]] is a
    slice expression: each is bounds-checked by the Go run time. *)
Definition unframe (resp : bytes) : outcome :=
  match resp !! 0%nat with
  | None => Panic (IndexOutOfRange 0 (length resp))
  | Some h =>
    if negb (h =? 0xaa) then
      Return [] (Some (Errorf "unknown response header byte"))
    else
      match resp !! 1%nat with
      | None => Panic (IndexOutOfRange 1 (length resp))
      | Some n =>
        let i := checksum_index n in
        match resp !! i with
        | None => Panic (IndexOutOfRange i (length resp))
        | Some c =>
          if (2 <=? i)%nat then
            if negb (c =? xor (subslice 2 i resp)) then
              Return [] (Some (Errorf "response checksum incorrect"))
            else Return (subslice 2 i resp) None
          else Panic (SliceBoundsOutOfRange 2 i)
        end
      end
  end.

(** ** [checksum] (main.go 83-90) *)

(** [binary.BigEndian.Uint16]: [uint16(b[1]) | uint16(b[0])<<8]. *)
Definition be_uint16 (b0 b1 : Z) : Z := Z.lor b1 (Z.shiftl b0 8).

(** The loop [for u := uint16(0); binary.Read(reader, BigEndian, &u) == nil;
    { checksum += u }]: [binary.Read] takes two bytes from the reader and
    fails (ending the loop) once fewer than two are left; the addition is in
    [uint16]. *)
Fixpoint checksum_loop (data : bytes) (acc : Z) : Z :=
  match data with
  | b0 :: b1 :: rest => checksum_loop rest ((acc + be_uint16 b0 b1) mod 65536)
  | _ => acc
  end.

Definition checksum (data : bytes) : Z :=
  Z.lor (checksum_loop data 0) 0x5115.

(** [binary.BigEndian.AppendUint16(b, v)]: [append(b, byte(v>>8), byte(v))]. *)
Definition AppendUint16 (b : bytes) (v : Z) : bytes :=
  b ++ [Z.shiftr v 8 mod 256; v mod 256].

(** ** The card reader and [ScardTag] (main.go 27-49) *)

(** [scard.Card.Transmit]: the card moves to a new state and answers with
    [(resp, err)]. *)
Class CardDriver (C : Type) := Transmit : bytes -> C -> C * (bytes * option error).

(** The [Tag] interface (main.go 21-23). *)
Class Tag (T : Type) := Transceive : bytes -> T -> T * outcome.

(** [ScardTag] wraps the card. [wire] is a ghost field: the byte strings
    handed to [Transmit] so far, oldest first. *)
Record ScardTag (C : Type) : Type := mkScardTag { card : C; wire : list bytes }.
Arguments mkScardTag {C} _ _.
Arguments card {C} _.
Arguments wire {C} _.

(** The fake SELECT APDU of line 33. *)
Definition keep_alive : bytes := [0x00; 0xa4; 0x04; 0x00].

Module ScardTag.
Section Methods.
Context {C : Type} `{CardDriver C}.

(** Lines 40-49. The two [fmt.Printf] under [DEBUG] only print. *)
Definition transceiveRaw (data : bytes) (c : ScardTag C)
  : ScardTag C * (bytes * option error) :=
  let '(card', r) := Transmit data (card c) in
  (mkScardTag card' (wire c ++ [data]), r).

(** Lines 31-38. On a failed keep-alive the named result [resp] is
    still [nil]. *)
Definition Transceive (data : bytes) (c : ScardTag C) : ScardTag C * outcome :=
  let '(c1, (_, err)) := transceiveRaw keep_alive c in
  match err with
  | Some e => (c1, Return [] (Some e))
  | None =>
    let '(c2, (resp, err')) := transceiveRaw data c1 in
    (c2, Return resp err')
  end.
End Methods.
End ScardTag.

#[global] Instance ScardTag_Tag {C : Type} `{CardDriver C} : Tag (ScardTag C) :=
  ScardTag.Transceive.

(** ** [Token] (main.go 51-53, 62-81, 92-107) *)

Module Token.
Section Methods.
Context {T : Type} `{Tag T}.

(** Lines 62-77. *)
Definition Transceive (data : bytes) (t : T) : T * outcome :=
  let buffer := frame data in
  match Transceive buffer t with
  | (t', Return resp (Some e)) => (t', Return resp (Some e))
  | (t', Return resp None) => (t', unframe resp)
  | (t', Panic e) => (t', Panic e)
  end.

(** Lines 79-81. *)
Definition GetInfo (t : T) : T * outcome := Transceive [0x10] t.

(** Lines 92-107. [data, err := t.GetInfo()] assigns the named result
    [err]; [resp] is still [nil] on the early return. *)
Definition BurnSeed (seed : bytes) (t : T) : T * outcome :=
  let buffer := seed in
  let buffer := buffer ++ [6; 30] in
  let buffer := AppendUint16 buffer (checksum seed) in
  match GetInfo t with
  | (t1, Return data (Some e)) => (t1, Return [] (Some e))
  | (t1, Panic e) => (t1, Panic e)
  | (t1, Return data None) =>
    match data !! 5%nat with
    | None => (t1, Panic (IndexOutOfRange 5 (length data)))
    | Some key =>
      let buffer := map (fun b => Z.lxor b key) buffer in
      Transceive (0x18 :: buffer) t1
    end
  end.
End Methods.
End Token.

(** ** A scripted card, for concrete runs *)

(** The card answers each transmission with the next entry of its script;
    a card with nothing left to say reports an error. *)
Definition Script : Type := list (bytes * option error).

#[global] Instance Script_CardDriver : CardDriver Script :=
  fun _ c => match c with
             | [] => ([], ([], Some (ScardError 0)))
             | r :: c' => (c', r)
             end.

Definition reader (script : Script) : ScardTag Script := mkScardTag script [].

(** ** Slices in memory

    The value-level functions above copy byte strings freely. To speak of
    what [BurnSeed] does to the memory of its caller, the same code is read
    once more over a store of backing arrays, with Go's slice headers and
    Go's [append]. *)

Module Mem.
Local Open Scope nat_scope.

(** The store: every backing array allocated so far, addressed by
    position. Allocation adds an array at the end. *)
Abbreviation heap := (list bytes).

(** A slice header: the backing array, the offset of element 0 in it, the
    length and the capacity. *)
Record slice : Type := mkSlice { base : nat; off : nat; len : nat; cap : nat }.

(** [[]byte(nil)]. *)
Definition nil_slice : slice := mkSlice 0 0 0 0.

(** The bytes a slice denotes. *)
Definition load (h : heap) (s : slice) : bytes :=
  take (len s) (drop (off s) (default [] (h !! base s))).

(** A slice literal [[]byte{...}]: a new array, exactly full. *)
Definition literal (vs : bytes) (h : heap) : slice * heap :=
  (mkSlice (length h) 0 (length vs) (length vs), h ++ [vs]).

(** What a call returns when its result is a slice header. *)
Inductive outcome_s : Type :=
  | ReturnS (resp : slice) (err : option error)
  | PanicS (e : runtime_error).

(** The byte strings behind a result. *)
Definition value_of (h : heap) (o : outcome_s) : outcome :=
  match o with
  | ReturnS s err => Return (load h s) err
  | PanicS e => Panic e
  end.

(** A slice header that fits the store: the length is within the capacity,
    and the capacity (when there is any) within the backing array. *)
Definition valid (h : heap) (s : slice) : bool :=
  (len s <=? cap s)
  && ((cap s =? 0)
      || match h !! base s with
         | Some arr => off s + cap s <=? length arr
         | None => false
         end).

(** [h'] has every array of [h], and those below address [n] hold what they
    held in [h]. *)
Definition unchanged_below (n : nat) (h h' : heap) : Prop :=
  length h <= length h' /\ forall a, a < n -> h' !! a = h !! a.

(** A slice that cannot reach the arrays below address [n]: it is empty
    without capacity, or its backing array lies at [n] or above. *)
Definition fresh (n : nat) (s : slice) : Prop :=
  (len s = 0 /\ cap s = 0) \/ n <= base s.

Section Runtime.
(** The capacity the run time picks when [append] must reallocate, from
    the old capacity and the length needed; at least that length is
    always allocated. *)
Variable growslice : nat -> nat -> nat.
Context {T : Type} `{Tag T}.

(** [append(s, vs...)]: in place when the capacity suffices, in a new
    array (holding the old elements and [vs]) when it does not. *)
Definition append (s : slice) (vs : bytes) (h : heap) : slice * heap :=
  let n := len s + length vs in
  if n <=? cap s then
    (mkSlice (base s) (off s) n (cap s),
     alter (list_inserts (off s + len s) vs) (base s) h)
  else
    let c := n `max` growslice (cap s) n in
    (mkSlice (length h) 0 n c, h ++ [load h s ++ vs ++ replicate (c - n) 0%Z]).

(** [for i := range buffer { buffer[i] ^= key }]. *)
Definition xor_in_place (key : Z) (buffer : slice) (h : heap) : heap :=
  fold_left
    (fun h i => alter (alter (fun b => Z.lxor b key) (off buffer + i)) (base buffer) h)
    (seq 0 (len buffer)) h.

(** A call through the [Tag] interface: the tag reads the bytes it is
    handed and answers in an array of its own. *)
Definition call_Tag (buffer : slice) (t : T) (h : heap) : T * heap * outcome_s :=
  match Transceive (load h buffer) t with
  | (t', Return resp err) =>
    (t', h ++ [resp], ReturnS (mkSlice (length h) 0 (length resp) (length resp)) err)
  | (t', Panic e) => (t', h, PanicS e)
  end.

(** Lines 70-76 on a slice: the checks of [unframe], and on success the
    sub-slice [resp[2 : 2+resp[1]-1]] of the reply. *)
Definition unframe (resp : slice) (h : heap) : outcome_s :=
  match unframe (load h resp) with
  | Return p None => ReturnS (mkSlice (base resp) (off resp + 2) (length p) (cap resp - 2)) None
  | Return _ (Some e) => ReturnS nil_slice (Some e)
  | Panic e => PanicS e
  end.

(** [Token.Transceive], lines 62-77. *)
Definition Transceive (data : slice) (t : T) (h : heap) : T * heap * outcome_s :=
  let '(buffer, h) :=
    literal [0x86; (Z.of_nat (len data) + 1) mod 256]%Z h in
  let '(buffer, h) := append buffer (load h data) h in
  let '(buffer, h) := append buffer [xor (load h data)] h in
  match call_Tag buffer t h with
  | (t', h, ReturnS resp (Some e)) => (t', h, ReturnS resp (Some e))
  | (t', h, ReturnS resp None) => (t', h, unframe resp h)
  | (t', h, PanicS e) => (t', h, PanicS e)
  end.

(** [Token.GetInfo], lines 79-81. *)
Definition GetInfo (t : T) (h : heap) : T * heap * outcome_s :=
  let '(arg, h) := literal [0x10%Z] h in
  Transceive arg t h.

(** [Token.BurnSeed], lines 92-107. [binary.BigEndian.AppendUint16] is the
    third [append]; [checksum(seed)] reads the seed after the first two. *)
Definition BurnSeed (seed : slice) (t : T) (h : heap) : T * heap * outcome_s :=
  let '(buffer, h) := append nil_slice (load h seed) h in
  let '(buffer, h) := append buffer [6; 30]%Z h in
  let v := checksum (load h seed) in
  let '(buffer, h) := append buffer [Z.shiftr v 8 mod 256; v mod 256]%Z h in
  match GetInfo t h with
  | (t1, h, ReturnS data (Some e)) => (t1, h, ReturnS nil_slice (Some e))
  | (t1, h, PanicS e) => (t1, h, PanicS e)
  | (t1, h, ReturnS data None) =>
    match load h data !! 5 with
    | None => (t1, h, PanicS (IndexOutOfRange 5 (len data)))
    | Some key =>
      let h := xor_in_place key buffer h in
      let '(arg, h) := literal [0x18%Z] h in
      let '(arg, h) := append arg (load h buffer) h in
      Transceive arg t1 h
    end
  end.
End Runtime.
End Mem.

(** ** Vocabulary of the specification *)

(** A byte value. *)
Definition is_byte (b : Z) : Prop := (0 <= b < 256)%Z.

(** [ProtocolError(msg)]: the call returns the error [fmt.Errorf(msg)]. *)
Definition fails_with (o : outcome) (msg : string) : Prop :=
  exists resp, o = Return resp (Some (Errorf msg)).

(** [swap_header]: a device echoing a frame with the header byte replaced. *)
Definition swap_header (h : Z) (f : bytes) : bytes := <[0%nat := h]> f.

(** A tag that echoes every frame with the header [0xAA]. *)
Inductive Echo : Type := echo.

#[global] Instance Echo_Tag : Tag Echo :=
  fun data t => (t, Return (swap_header 0xaa data) None).

(** The big-endian 16-bit words of a byte string, in order; a trailing odd
    byte belongs to no word. *)
Fixpoint be_words (data : bytes) : list Z :=
  match data with
  | b0 :: b1 :: rest => (256 * b0 + b1)%Z :: be_words rest
  | _ => []
  end.

(** The checksum in the words of the specification: the sum of the words
    modulo 2^16, OR-ed with the mask [0x5115]. *)
Definition checksum16_spec (data : bytes) : Z :=
  Z.lor (fold_right Z.add 0%Z (be_words data) mod 2 ^ 16) 0x5115.

(** The burn buffer in the words of the specification:
    [seed || 0x06 || 0x1E || checksum16(seed)], the checksum big-endian. *)
Definition burn_buffer (seed : bytes) : bytes :=
  seed ++ [0x06; 0x1e]%Z ++ [checksum seed / 256; checksum seed mod 256]%Z.

(** The payload of the burn command under the session key [key]. *)
Definition burn_payload (key : Z) (seed : bytes) : bytes :=
  0x18%Z :: map (fun b => Z.lxor b key) (burn_buffer seed).

(** ** The connect loop of [run] (main.go 148-155) *)

(** [scard.Context.Connect], a collaborator outside the repository: the
    world moves on and the call answers [(card, err)]; a [nil] card is
    [None]. *)
Class Connector (W Card : Type) :=
  Connect : string -> W -> W * (option Card * option error).

(** Lines 150-154, the inner loop over [readers]: every attempt assigns the
    variables [card] and [err] of [run]; the loop breaks at the first attempt
    that leaves [err] nil. *)
Fixpoint connect_pass {W Card : Type} `{Connector W Card}
    (readers : list string) (card : option Card) (err : option error) (w : W)
  : W * (option Card * option error) :=
  match readers with
  | [] => (w, (card, err))
  | reader :: readers' =>
    let '(w', (card', err')) := Connect reader w in
    match err' with
    | None => (w', (card', err'))
    | Some _ => connect_pass readers' card' err' w'
    end
  end.

(** Lines 149-155, [for card == nil { ... }]. The loop has no bound of its
    own: [fuel] counts the passes allowed, and [None] says the loop is still
    running when they are used up. *)
Fixpoint connect_loop {W Card : Type} `{Connector W Card}
    (fuel : nat) (readers : list string)
    (card : option Card) (err : option error) (w : W)
  : option (W * (option Card * option error)) :=
  match card with
  | Some _ => Some (w, (card, err))
  | None =>
    match fuel with
    | O => None
    | S fuel' =>
      let '(w', (card', err')) := connect_pass readers card err w in
      connect_loop fuel' readers card' err' w'
    end
  end.

(** A world for concrete runs: the readers that have a token on them, and
    the attempts made so far. A reader with a token connects to a card named
    after it; any other attempt fails. *)
Record Desk : Type := mkDesk { tokens : list string; attempts : list string }.

#[global] Instance Desk_Connector : Connector Desk string :=
  fun reader w =>
    (mkDesk (tokens w) (attempts w ++ [reader]),
     if bool_decide (reader ∈ tokens w) then (Some reader, None)
     else (None, Some (ScardError 0x80100009))).

(** A driver that answers as the card library does: a card and no error,
    or an error and no card. *)
Definition connects_cleanly {W Card : Type} `{Connector W Card} : Prop :=
  forall reader w,
    (exists card, (Connect reader w).2 = (Some card, None))
    \/ (exists e, (Connect reader w).2 = (None, Some e)).

(** * Properties *)

(** ** Concrete runs *)

Example xor_example : xor [0x11; 0x22; 0x06] = 0x35.
Proof. reflexivity. Qed.

Example frame_example : frame [0x10] = [0x86; 0x02; 0x10; 0x10].
Proof. reflexivity. Qed.

Example unframe_example : unframe [0xaa; 0x02; 0x01; 0x01] = Return [0x01] None.
Proof. reflexivity. Qed.

Example checksum_example : checksum [0x11; 0x22] = 0x5137.
Proof. reflexivity. Qed.

(** The scenario of the specification, with a six-byte info payload. *)
Example BurnSeed_example :
  Token.BurnSeed [0x11; 0x22]
    (reader [([0x90; 0x00], None);
             ([0xaa; 0x07; 0; 0; 0; 0; 0; 0x2a; 0x2a], None);
             ([0x90; 0x00], None);
             ([0xaa; 0x02; 0x01; 0x01], None)])
  = (mkScardTag []
       [keep_alive; [0x86; 0x02; 0x10; 0x10];
        keep_alive; [0x86; 0x08; 0x18; 0x3b; 0x08; 0x2c; 0x34; 0x7b; 0x1d; 0x55]],
     Return [0x01] None).
Proof. reflexivity. Qed.

(** ** The XOR fold and the checksum *)

Lemma list_pair_ind (P : bytes -> Prop) :
  P [] -> (forall b, P [b]) ->
  (forall b0 b1 rest, P rest -> P (b0 :: b1 :: rest)) ->
  forall data, P data.
Proof.
  intros Hnil Hone Hstep.
  assert (Hboth : forall data, P data /\ forall b, P (b :: data)).
  { induction data as [|b data [IH1 IH2]]; split; auto. }
  intros data. apply Hboth.
Qed.

Lemma be_uint16_byte b0 b1 : is_byte b1 -> be_uint16 b0 b1 = 256 * b0 + b1.
Proof.
  intros [Hlo Hhi]. unfold be_uint16.
  rewrite Z.shiftl_mul_pow2 by lia.
  rewrite <- Z.lxor_lor, <- Z.add_nocarry_lxor; try lia.
  all: apply Z.bits_inj'; intros i Hi; rewrite Z.land_spec, Z.bits_0.
  all: destruct (Z.lt_ge_cases i 8) as [Hlt|Hge].
  all: try (rewrite Z.mul_pow2_bits_low by lia; apply andb_false_r).
  all: replace b1 with (b1 mod 2 ^ 8) by (apply Z.mod_small; lia).
  all: rewrite Z.mod_pow2_bits_high by lia; reflexivity.
Qed.

Lemma checksum_loop_sum data :
  Forall is_byte data ->
  forall acc,
    checksum_loop data acc mod 65536
    = (acc + fold_right Z.add 0 (be_words data)) mod 65536.
Proof.
  induction data as [|b|b0 b1 rest IH] using list_pair_ind; intros Hb acc; simpl.
  - f_equal; lia.
  - f_equal; lia.
  - inversion Hb as [|? ? _ Hb']; subst. inversion Hb' as [|? ? H1 Hrest]; subst.
    rewrite IH by assumption. rewrite be_uint16_byte by assumption.
    rewrite Zplus_mod_idemp_l. f_equal; lia.
Qed.

Lemma checksum_loop_range data :
  forall acc, 0 <= acc < 65536 -> 0 <= checksum_loop data acc < 65536.
Proof.
  induction data as [|b|b0 b1 rest IH] using list_pair_ind; intros acc Hacc; simpl; auto.
  apply IH. apply Z.mod_pos_bound. lia.
Qed.

Lemma lor_mask_range x : 0 <= x < 65536 -> 0 <= Z.lor x 0x5115 < 65536.
Proof.
  intros [Hlo Hhi]. split; [apply Z.lor_nonneg; lia|].
  destruct (Z.eq_dec (Z.lor x 0x5115) 0) as [->|Hne]; [lia|].
  change 65536 with (2 ^ 16). apply Z.log2_lt_pow2.
  - assert (0 <= Z.lor x 0x5115) by (apply Z.lor_nonneg; lia). lia.
  - rewrite Z.log2_lor by lia.
    apply Z.max_lub_lt; [|reflexivity].
    destruct (Z.eq_dec x 0) as [->|Hx]; [reflexivity|].
    apply Z.log2_lt_pow2; lia.
Qed.

Lemma checksum_range data : 0 <= checksum data < 65536.
Proof. apply lor_mask_range, checksum_loop_range. lia. Qed.

Lemma lor_mask_set x m : Z.land (Z.lor x m) m = m.
Proof.
  apply Z.bits_inj'. intros i _. rewrite Z.land_spec, Z.lor_spec.
  destruct (Z.testbit x i), (Z.testbit m i); reflexivity.
Qed.

(** C7. For every byte string [data], [checksum data] is the sum modulo 2^16
    of the big-endian 16-bit words of [data] taken in order (a trailing odd
    byte is in no word), OR-ed with the mask [0x5115]; hence the mask bits
    are set in every result: [checksum data & 0x5115 = 0x5115]. *)
Theorem checksum_is_masked_word_sum (data : bytes) :
  Forall is_byte data ->
  checksum data = checksum16_spec data
  /\ Z.land (checksum data) 0x5115 = 0x5115.
Proof.
  intros Hb. split.
  - unfold checksum, checksum16_spec. f_equal.
    rewrite <- (Z.mod_small (checksum_loop data 0) 65536)
      by (apply checksum_loop_range; lia).
    rewrite checksum_loop_sum by assumption. reflexivity.
  - apply lor_mask_set.
Qed.

Lemma checksum_is_masked_word_sum_witness :
  Forall is_byte [0xff; 0xfe; 0x00; 0x03; 0x07]
  /\ checksum [0xff; 0xfe; 0x00; 0x03; 0x07]
     = checksum16_spec [0xff; 0xfe; 0x00; 0x03; 0x07]
  /\ Z.land (checksum [0xff; 0xfe; 0x00; 0x03; 0x07]) 0x5115 = 0x5115.
Proof.
  assert (Hb : Forall is_byte [0xff; 0xfe; 0x00; 0x03; 0x07]).
  { repeat constructor; unfold is_byte; lia. }
  split; [exact Hb|].
  apply (checksum_is_masked_word_sum [0xff; 0xfe; 0x00; 0x03; 0x07] Hb).
Defined.

(** The odd-length example of the specification: the trailing byte is
    ignored, and the 16-bit sum wraps. *)
Example checksum_odd : checksum [0x00; 0x01; 0x02] = checksum [0x00; 0x01].
Proof. reflexivity. Qed.

Example checksum_wraps : checksum [0xff; 0xff; 0x00; 0x02] = 0x5115.
Proof. reflexivity. Qed.

(** ** The outbound frame and the keep-alive *)

Section Wire.
Context {C : Type} `{CardDriver C}.

(** What [ScardTag.Transceive] does, by the answer of the card to the
    keep-alive. *)
Lemma ScardTag_Transceive_failed (data : bytes) (c : ScardTag C) k r e :
  Transmit keep_alive (card c) = (k, (r, Some e)) ->
  ScardTag.Transceive data c
  = (mkScardTag k (wire c ++ [keep_alive]), Return [] (Some e)).
Proof.
  intros Hk. unfold ScardTag.Transceive, ScardTag.transceiveRaw.
  rewrite Hk. reflexivity.
Qed.

Lemma ScardTag_Transceive_sent (data : bytes) (c : ScardTag C) k r k' resp err :
  Transmit keep_alive (card c) = (k, (r, None)) ->
  Transmit data k = (k', (resp, err)) ->
  ScardTag.Transceive data c
  = (mkScardTag k' (wire c ++ [keep_alive; data]), Return resp err).
Proof.
  intros Hk Hd. unfold ScardTag.Transceive, ScardTag.transceiveRaw.
  rewrite Hk. simpl. rewrite Hd. rewrite <- app_assoc. reflexivity.
Qed.

(** What [Token.Transceive] over a [ScardTag] does when the keep-alive
    and the transmission succeed. *)
Lemma Token_Transceive_sent (data : bytes) (c : ScardTag C) k r k' resp :
  Transmit keep_alive (card c) = (k, (r, None)) ->
  Transmit (frame data) k = (k', (resp, None)) ->
  Token.Transceive data c
  = (mkScardTag k' (wire c ++ [keep_alive; frame data]), unframe resp).
Proof.
  intros Hk Hd. unfold Token.Transceive, Transceive, ScardTag_Tag.
  rewrite (ScardTag_Transceive_sent _ _ _ _ _ _ _ Hk Hd). reflexivity.
Qed.
End Wire.

Lemma Token_Transceive_state {T : Type} `{Tag T} (data : bytes) (t : T) :
  (Token.Transceive data t).1 = (Transceive (frame data) t).1.
Proof.
  unfold Token.Transceive.
  destruct (Transceive (frame data) t) as [t' [resp [e|]|e]]; reflexivity.
Qed.

Lemma ScardTag_Transceive_wire {C : Type} `{CardDriver C}
    (data : bytes) (c : ScardTag C) :
  (Transmit keep_alive (card c)).2.2 = None ->
  wire (ScardTag.Transceive data c).1 = wire c ++ [keep_alive; data].
Proof.
  destruct (Transmit keep_alive (card c)) as [k [r e]] eqn:Hk. simpl.
  intros ->. destruct (Transmit data k) as [k' [resp err]] eqn:Hd.
  rewrite (ScardTag_Transceive_sent _ _ _ _ _ _ _ Hk Hd). reflexivity.
Qed.

(** Whatever the card answers, the traffic of one call starts with the
    keep-alive and goes on with at most the data. *)
Lemma ScardTag_Transceive_extends {C : Type} `{CardDriver C}
    (data : bytes) (c : ScardTag C) :
  exists rest,
    wire (ScardTag.Transceive data c).1 = wire c ++ keep_alive :: rest
    /\ (rest = [] \/ rest = [data]).
Proof.
  destruct (Transmit keep_alive (card c)) as [k [r [e|]]] eqn:Hk.
  - exists []. rewrite (ScardTag_Transceive_failed data c k r e Hk). auto.
  - destruct (Transmit data k) as [k' [resp err]] eqn:Hd.
    exists [data]. rewrite (ScardTag_Transceive_sent _ _ _ _ _ _ _ Hk Hd). auto.
Qed.

Lemma frame_length_byte (data : bytes) :
  (length data <= 254)%nat ->
  (Z.of_nat (length data) + 1) mod 256 = Z.of_nat (length data) + 1.
Proof. intros Hlen. apply Z.mod_small. lia. Qed.

(** C5. For every payload of at most 254 bytes, the byte string handed to
    the transport for the real transmission (the one after the keep-alive)
    is exactly [0x86], the byte [len(payload)+1], the payload, and the
    left-to-right XOR fold of the payload starting at 0. *)
Theorem outbound_frame_on_the_wire {C : Type} `{CardDriver C}
    (payload : bytes) (c : ScardTag C) :
  (length payload <= 254)%nat ->
  (Transmit keep_alive (card c)).2.2 = None ->
  wire (Token.Transceive payload c).1
  = wire c ++ [keep_alive;
               [0x86; Z.of_nat (length payload) + 1] ++ payload
               ++ [fold_left Z.lxor payload 0]].
Proof.
  intros Hlen Hk. rewrite Token_Transceive_state.
  unfold Transceive, ScardTag_Tag. rewrite ScardTag_Transceive_wire by assumption.
  unfold frame. rewrite frame_length_byte by assumption. reflexivity.
Qed.

Lemma outbound_frame_on_the_wire_witness :
  wire (Token.Transceive [0x10] (reader [([0x90; 0x00], None)])).1
  = [keep_alive; [0x86; 0x02; 0x10; 0x10]].
Proof.
  apply (outbound_frame_on_the_wire [0x10] (reader [([0x90; 0x00], None)])).
  - simpl. lia.
  - reflexivity.
Defined.

(** C8. Every transmission through [ScardTag.Transceive] starts by sending
    the probe [0x00, 0xA4, 0x04, 0x00]; when the card answers the probe with
    an error, the call returns that error and nothing is sent after the
    probe: neither [ScardTag.Transceive] nor [Token.Transceive] on top of it
    puts the real (framed) payload on the wire. *)
Theorem keep_alive_precedes {C : Type} `{CardDriver C}
    (data : bytes) (c : ScardTag C) :
  (exists rest,
      wire (ScardTag.Transceive data c).1 = wire c ++ [0x00; 0xa4; 0x04; 0x00] :: rest
      /\ (rest = [] \/ rest = [data]))
  /\ (forall e,
        (Transmit [0x00; 0xa4; 0x04; 0x00] (card c)).2.2 = Some e ->
        (ScardTag.Transceive data c).2 = Return [] (Some e)
        /\ wire (ScardTag.Transceive data c).1 = wire c ++ [[0x00; 0xa4; 0x04; 0x00]]
        /\ (Token.Transceive data c).2 = Return [] (Some e)
        /\ wire (Token.Transceive data c).1 = wire c ++ [[0x00; 0xa4; 0x04; 0x00]]).
Proof.
  fold keep_alive. split; [apply ScardTag_Transceive_extends|].
  destruct (Transmit keep_alive (card c)) as [k [r [e|]]] eqn:Hk; simpl;
    [|discriminate].
  pose proof (ScardTag_Transceive_failed data c k r e Hk) as Hd.
  pose proof (ScardTag_Transceive_failed (frame data) c k r e Hk) as Hf.
  intros e' [= <-]. rewrite Hd. repeat split.
  all: unfold Token.Transceive, Transceive, ScardTag_Tag; rewrite Hf; reflexivity.
Qed.

Lemma keep_alive_precedes_witness :
  (ScardTag.Transceive [0x86; 0x02; 0x10; 0x10]
     (reader [([], Some (ScardError 6))])).2
  = Return [] (Some (ScardError 6))
  /\ wire (Token.Transceive [0x10] (reader [([], Some (ScardError 6))])).1
     = [[0x00; 0xa4; 0x04; 0x00]].
Proof.
  destruct (keep_alive_precedes [0x86; 0x02; 0x10; 0x10]
              (reader [([], Some (ScardError 6))])) as [_ Hfail].
  destruct (keep_alive_precedes [0x10]
              (reader [([], Some (ScardError 6))])) as [_ Hfail'].
  split.
  - apply (Hfail (ScardError 6)). reflexivity.
  - apply (Hfail' (ScardError 6)). reflexivity.
Defined.

(** C9, as the code has it. A payload of more than 254 bytes is framed like
    any other: no error is raised, the length byte is [len(payload)+1]
    reduced modulo 256 (so it no longer equals [len(payload)+1]), and the
    frame goes out on the wire after the keep-alive. *)
Theorem oversized_payload_wraps {C : Type} `{CardDriver C}
    (payload : bytes) (c : ScardTag C) :
  (254 < length payload)%nat ->
  (Transmit keep_alive (card c)).2.2 = None ->
  wire (Token.Transceive payload c).1
  = wire c ++ [keep_alive;
               [0x86; (Z.of_nat (length payload) + 1) mod 256] ++ payload
               ++ [xor payload]]
  /\ (Z.of_nat (length payload) + 1) mod 256 <> Z.of_nat (length payload) + 1.
Proof.
  intros Hlen Hk. split.
  - rewrite Token_Transceive_state.
    unfold Transceive, ScardTag_Tag. rewrite ScardTag_Transceive_wire by assumption.
    reflexivity.
  - pose proof (Z.mod_pos_bound (Z.of_nat (length payload) + 1) 256). lia.
Qed.

Lemma oversized_payload_wraps_witness :
  wire (Token.Transceive (replicate 256 0x41)
          (reader [([0x90; 0x00], None)])).1
  = [keep_alive; [0x86; 0x01] ++ replicate 256 0x41 ++ [0x00]]
  /\ (Z.of_nat (length (replicate 256 0x41)) + 1) mod 256
     <> Z.of_nat (length (replicate 256 0x41)) + 1.
Proof.
  apply (oversized_payload_wraps (replicate 256 0x41)
           (reader [([0x90; 0x00], None)])).
  - vm_compute. lia.
  - reflexivity.
Defined.

(** C9 fails as stated: a payload of 255 bytes is not refused. The frame is
    sent with the length byte 0 (256 wrapped), and with a card that answers
    a well-formed empty reply the call succeeds. *)
Lemma oversized_payload_not_refused :
  Token.Transceive (replicate 255 0x00)
    (reader [([0x90; 0x00], None); ([0xaa; 0x01; 0x00], None)])
  = (mkScardTag []
       [keep_alive; [0x86; 0x00] ++ replicate 255 0x00 ++ [0x00]],
     Return [] None).
Proof. vm_compute. reflexivity. Qed.

(** ** Reply validation *)

Lemma checksum_index_wrap (n : Z) :
  checksum_index n = Z.to_nat ((n + 1) mod 256).
Proof.
  unfold checksum_index. rewrite Zminus_mod_idemp_l. do 2 f_equal. lia.
Qed.

Lemma checksum_index_small (n : Z) :
  0 <= n <= 254 -> checksum_index n = S (Z.to_nat n).
Proof.
  intros Hn. rewrite checksum_index_wrap, Z.mod_small by lia. lia.
Qed.

(** What [unframe] makes of a reply whose first three positions are
    known. *)
Lemma unframe_checked (resp : bytes) (n c : Z) :
  resp !! 0%nat = Some 0xaa ->
  resp !! 1%nat = Some n ->
  resp !! checksum_index n = Some c ->
  (2 <= checksum_index n)%nat ->
  unframe resp
  = if c =? xor (subslice 2 (checksum_index n) resp)
    then Return (subslice 2 (checksum_index n) resp) None
    else Return [] (Some (Errorf "response checksum incorrect")).
Proof.
  intros H0 H1 Hc Hi. unfold unframe. rewrite H0, H1. cbv zeta. rewrite Hc.
  apply Nat.leb_le in Hi. rewrite Hi.
  destruct (c =? xor (subslice 2 (checksum_index n) resp)); reflexivity.
Qed.

(** The round trip holds up to 253 bytes. *)
Lemma unframe_swapped_frame (p : bytes) :
  (length p <= 253)%nat ->
  unframe (swap_header 0xaa (frame p)) = Return p None.
Proof.
  intros Hlen. unfold frame, swap_header. simpl.
  set (n := (Z.of_nat (length p) + 1) mod 256).
  assert (Hn : n = Z.of_nat (length p) + 1) by (apply Z.mod_small; lia).
  assert (Hi : checksum_index n = S (S (length p))).
  { rewrite checksum_index_small by lia. lia. }
  rewrite (unframe_checked _ n (xor p)); rewrite ?Hi; try reflexivity; try lia.
  - unfold subslice. simpl. rewrite Nat.sub_0_r, drop_0, take_app_length, Z.eqb_refl.
    reflexivity.
  - simpl. rewrite lookup_app_r by lia. rewrite Nat.sub_diag. reflexivity.
Qed.

Lemma Transceive_echo (p : bytes) :
  (length p <= 253)%nat -> Token.Transceive p echo = (echo, Return p None).
Proof.
  intros Hlen. unfold Token.Transceive, Transceive, Echo_Tag.
  rewrite unframe_swapped_frame by assumption. reflexivity.
Qed.

(** C2, at the payload where the code breaks it. For a payload of 254 bytes
    the frame carries the length byte 255; on the way back
    [2+resp[1]-1] wraps to 0 in [uint8], and the slice expression
    [resp[2:0]] stops the call with a run-time panic: nothing is returned. *)
Theorem roundtrip_panics_at_254 :
  length (replicate 254 0x00) = 254%nat
  /\ unframe (swap_header 0xaa (frame (replicate 254 0x00)))
     = Panic (SliceBoundsOutOfRange 2 0)
  /\ Token.Transceive (replicate 254 0x00) echo
     = (echo, Panic (SliceBoundsOutOfRange 2 0)).
Proof. vm_compute. auto. Qed.

(** When [unframe] returns a payload. *)
Lemma unframe_Return_inv (resp p : bytes) :
  unframe resp = Return p None ->
  resp !! 0%nat = Some 0xaa
  /\ exists n,
      resp !! 1%nat = Some n
      /\ resp !! checksum_index n = Some (xor p)
      /\ (2 <= checksum_index n)%nat
      /\ p = subslice 2 (checksum_index n) resp.
Proof.
  unfold unframe.
  destruct (resp !! 0%nat) as [h|]; [|discriminate].
  destruct (Z.eqb_spec h 0xaa) as [->|_]; [|discriminate]. cbn [negb].
  destruct (resp !! 1%nat) as [n|]; [|discriminate]. cbv zeta.
  destruct (resp !! checksum_index n) as [c|] eqn:Hc; [|discriminate].
  destruct (Nat.leb_spec 2 (checksum_index n)) as [Hi|_]; [|discriminate].
  destruct (Z.eqb_spec c (xor (subslice 2 (checksum_index n) resp)))
    as [Heq|_]; [|discriminate].
  cbn [negb]. intros [= <-]. split; [reflexivity|].
  exists n. rewrite <- Heq. auto.
Qed.

(** An error of [unframe] comes with no payload. *)
Lemma unframe_error_inv (resp p : bytes) (e : error) :
  unframe resp = Return p (Some e) -> p = [].
Proof.
  unfold unframe.
  destruct (resp !! 0%nat) as [h|]; [|discriminate].
  destruct (negb (h =? 0xaa)); [intros [= <- _]; reflexivity|].
  destruct (resp !! 1%nat) as [n|]; [|discriminate]. cbv zeta.
  destruct (resp !! checksum_index n) as [c|]; [|discriminate].
  destruct (2 <=? checksum_index n)%nat; [|discriminate].
  destruct (negb (c =? xor (subslice 2 (checksum_index n) resp)));
    [intros [= <- _]; reflexivity|discriminate].
Qed.

(** C3 fails as stated: an empty reply is not answered with a protocol
    error. Reading [resp[0]] panics. *)
Lemma empty_reply_panics :
  unframe [] = Panic (IndexOutOfRange 0 0)
  /\ ~ fails_with (unframe []) "unknown response header byte".
Proof.
  split; [reflexivity|]. intros [resp Hresp]. discriminate Hresp.
Qed.

(** C3, as the code has it. A non-empty reply whose first byte is not
    [0xAA] fails with "unknown response header byte". A reply with header
    [0xAA], a declared length [n = resp[1]] from 1 to 254 and a byte at
    position [2+n-1] fails with "response checksum incorrect" whenever that
    byte differs from the XOR fold of [resp[2 : 2+n-1]]. And a payload is
    returned only when the header is [0xAA] and the byte at the checksum
    position is the XOR fold of the payload returned: never for an empty
    reply, a wrong header or a wrong checksum. *)
Theorem unframe_rejects (resp : bytes) :
  (forall h,
      resp !! 0%nat = Some h -> h <> 0xaa ->
      unframe resp = Return [] (Some (Errorf "unknown response header byte")))
  /\ (forall n c,
        resp !! 0%nat = Some 0xaa -> resp !! 1%nat = Some n -> 1 <= n <= 254 ->
        resp !! (2 + Z.to_nat n - 1)%nat = Some c ->
        c <> xor (subslice 2 (2 + Z.to_nat n - 1) resp) ->
        unframe resp = Return [] (Some (Errorf "response checksum incorrect")))
  /\ (forall p,
        unframe resp = Return p None ->
        resp !! 0%nat = Some 0xaa
        /\ exists n,
            resp !! 1%nat = Some n
            /\ resp !! checksum_index n = Some (xor p)
            /\ p = subslice 2 (checksum_index n) resp).
Proof.
  split; [|split].
  - intros h H0 Hh. unfold unframe. rewrite H0.
    apply Z.eqb_neq in Hh. rewrite Hh. reflexivity.
  - intros n c H0 H1 Hn Hc Hne.
    assert (Hi : checksum_index n = (2 + Z.to_nat n - 1)%nat).
    { rewrite checksum_index_small by lia. lia. }
    rewrite <- Hi in Hc, Hne.
    rewrite (unframe_checked resp n c) by (assumption || lia).
    apply Z.eqb_neq in Hne. rewrite Hne. reflexivity.
  - intros p Hp.
    destruct (unframe_Return_inv resp p Hp) as (H0 & n & H1 & Hc & _ & Hpay).
    eauto.
Qed.

Lemma unframe_rejects_witness :
  unframe [0x00; 0x01; 0x00]
  = Return [] (Some (Errorf "unknown response header byte"))
  /\ unframe [0xaa; 0x02; 0x41; 0x00]
     = Return [] (Some (Errorf "response checksum incorrect"))
  /\ ([0xaa; 0x02; 0x01; 0x01] !! 0%nat = Some 0xaa
      /\ exists n,
          [0xaa; 0x02; 0x01; 0x01] !! 1%nat = Some n
          /\ [0xaa; 0x02; 0x01; 0x01] !! checksum_index n = Some (xor [0x01])
          /\ [0x01] = subslice 2 (checksum_index n) [0xaa; 0x02; 0x01; 0x01]).
Proof.
  split; [|split].
  - apply (proj1 (unframe_rejects [0x00; 0x01; 0x00]) 0x00);
      [reflexivity | discriminate].
  - apply (proj1 (proj2 (unframe_rejects [0xaa; 0x02; 0x41; 0x00])) 0x02 0x00);
      [reflexivity | reflexivity | lia | reflexivity | discriminate].
  - apply (proj2 (proj2 (unframe_rejects [0xaa; 0x02; 0x01; 0x01])) [0x01]).
    reflexivity.
Defined.

(** C4 fails as stated: the reply [0xAA, 0x00] returns no payload. The
    checksum position is 1, and the slice expression [resp[2:1]] panics. *)
Lemma zero_length_reply_panics :
  unframe [0xaa; 0x00] = Panic (SliceBoundsOutOfRange 2 1).
Proof. reflexivity. Qed.

(** C4, as the code has it. Every reply of the form [0xAA, 0x00, ...] stops
    with the run-time panic of the slice expression [resp[2:1]]; no payload
    and no error is returned. The empty payload is what a reply with the
    declared length 1 and the checksum byte 0 carries:
    [0xAA, 0x01, 0x00, ...] returns it. *)
Theorem zero_length_reply (rest : bytes) :
  unframe (0xaa :: 0x00 :: rest) = Panic (SliceBoundsOutOfRange 2 1)
  /\ unframe (0xaa :: 0x01 :: 0x00 :: rest) = Return [] None.
Proof. split; reflexivity. Qed.

(** ** The session key and the burn command *)

Lemma AppendUint16_checksum (seed : bytes) :
  AppendUint16 (seed ++ [6; 30]) (checksum seed) = burn_buffer seed.
Proof.
  pose proof (checksum_range seed) as Hr.
  unfold AppendUint16, burn_buffer. rewrite <- app_assoc. do 2 f_equal.
  rewrite Z.shiftr_div_pow2 by lia. change (2 ^ 8) with 256.
  rewrite Z.mod_small; [reflexivity|].
  split; [apply Z.div_pos; lia | apply Z.div_lt_upper_bound; lia].
Qed.

(** [BurnSeed] once [GetInfo] has answered without error. *)
Lemma BurnSeed_after_info {T : Type} `{Tag T} (seed info : bytes) (t t1 : T) :
  Token.GetInfo t = (t1, Return info None) ->
  Token.BurnSeed seed t
  = match info !! 5%nat with
    | Some key => Token.Transceive (burn_payload key seed) t1
    | None => (t1, Panic (IndexOutOfRange 5 (length info)))
    end.
Proof.
  intros Hinfo. unfold Token.BurnSeed. rewrite Hinfo.
  rewrite AppendUint16_checksum. reflexivity.
Qed.

(** C1 fails as stated. With the five-byte info payload
    [0, 0, 0, 0, 0x2A] the call does not go on with the key [info[4]]: it
    panics on [data[5]] and the burn frame is never sent. With the six-byte
    payload [0, 0, 0, 0, 0x2A, 0x07] the burn buffer goes out XORed with
    [0x07], the byte at offset 5, not with [0x2A]. *)
Lemma key_is_not_info_4 :
  Token.BurnSeed [0x11; 0x22]
    (reader [([0x90; 0x00], None);
             ([0xaa; 0x06; 0; 0; 0; 0; 0x2a; 0x2a], None);
             ([0x90; 0x00], None);
             ([0xaa; 0x02; 0x01; 0x01], None)])
  = (mkScardTag [([0x90; 0x00], None); ([0xaa; 0x02; 0x01; 0x01], None)]
       [keep_alive; [0x86; 0x02; 0x10; 0x10]],
     Panic (IndexOutOfRange 5 5))
  /\ Token.BurnSeed [0x11; 0x22]
       (reader [([0x90; 0x00], None);
                ([0xaa; 0x07; 0; 0; 0; 0; 0x2a; 0x07; 0x2d], None);
                ([0x90; 0x00], None);
                ([0xaa; 0x02; 0x01; 0x01], None)])
     = (mkScardTag []
          [keep_alive; [0x86; 0x02; 0x10; 0x10];
           keep_alive;
           [0x86; 0x08; 0x18;
            Z.lxor 0x11 0x07; Z.lxor 0x22 0x07; Z.lxor 0x06 0x07;
            Z.lxor 0x1e 0x07; Z.lxor 0x51 0x07; Z.lxor 0x37 0x07; 0x55]],
        Return [0x01] None).
Proof. split; reflexivity. Qed.

(** C1, as the code has it. After a [GetInfo] that returned the payload
    [info] without error, [BurnSeed] takes the session key from the
    zero-based offset 5: with [info[5] = key] it goes on to send the burn
    payload built with [key]. There is no length check and no "info too
    short" error: when [info] has fewer than 6 bytes, reading [data[5]]
    panics, nothing is returned and the burn command is never sent. *)
Theorem session_key_is_info_5 {T : Type} `{Tag T} (seed info : bytes) (t t1 : T) :
  Token.GetInfo t = (t1, Return info None) ->
  (forall key,
      info !! 5%nat = Some key ->
      Token.BurnSeed seed t
      = Token.Transceive
          (0x18 :: map (fun b => Z.lxor b key) (burn_buffer seed)) t1)
  /\ ((length info < 6)%nat ->
      Token.BurnSeed seed t = (t1, Panic (IndexOutOfRange 5 (length info)))).
Proof.
  intros Hinfo. rewrite (BurnSeed_after_info seed info t t1 Hinfo). split.
  - intros key ->. reflexivity.
  - intros Hlen. rewrite lookup_ge_None_2 by lia. reflexivity.
Qed.

Lemma session_key_is_info_5_witness :
  Token.BurnSeed [0x11; 0x22]
    (reader [([0x90; 0x00], None);
             ([0xaa; 0x07; 1; 2; 3; 4; 5; 6; 0x07], None)])
  = Token.Transceive
      (0x18 :: map (fun b => Z.lxor b 6) (burn_buffer [0x11; 0x22]))
      (mkScardTag [] [keep_alive; [0x86; 0x02; 0x10; 0x10]])
  /\ Token.BurnSeed [0x11; 0x22]
       (reader [([0x90; 0x00], None);
                ([0xaa; 0x06; 1; 2; 3; 4; 5; 0x01], None)])
     = (mkScardTag [] [keep_alive; [0x86; 0x02; 0x10; 0x10]],
        Panic (IndexOutOfRange 5 5)).
Proof.
  split.
  - destruct (session_key_is_info_5 [0x11; 0x22] [1; 2; 3; 4; 5; 6]
                (reader [([0x90; 0x00], None);
                         ([0xaa; 0x07; 1; 2; 3; 4; 5; 6; 0x07], None)])
                (mkScardTag [] [keep_alive; [0x86; 0x02; 0x10; 0x10]]))
      as [Hkey _]; [reflexivity|].
    apply (Hkey 6). reflexivity.
  - destruct (session_key_is_info_5 [0x11; 0x22] [1; 2; 3; 4; 5]
                (reader [([0x90; 0x00], None);
                         ([0xaa; 0x06; 1; 2; 3; 4; 5; 0x01], None)])
                (mkScardTag [] [keep_alive; [0x86; 0x02; 0x10; 0x10]]))
      as [_ Hshort]; [reflexivity|].
    apply Hshort. simpl. lia.
Defined.

(** The traffic of [BurnSeed] starts with the traffic of [GetInfo]. *)
Lemma BurnSeed_starts_with_GetInfo {C : Type} `{CardDriver C}
    (seed : bytes) (c : ScardTag C) :
  exists rest,
    wire (Token.BurnSeed seed c).1 = wire (Token.GetInfo c).1 ++ rest.
Proof.
  destruct (Token.GetInfo c) as [c1 [info [e|]|e]] eqn:Hget.
  - exists []. unfold Token.BurnSeed. rewrite Hget, app_nil_r. reflexivity.
  - rewrite (BurnSeed_after_info seed info c c1 Hget).
    destruct (info !! 5%nat) as [key|].
    + rewrite Token_Transceive_state.
      destruct (ScardTag_Transceive_extends (frame (burn_payload key seed)) c1)
        as (rest & Hrest & _).
      exists (keep_alive :: rest). exact Hrest.
    + exists []. simpl. rewrite app_nil_r. reflexivity.
  - exists []. unfold Token.BurnSeed. rewrite Hget, app_nil_r. reflexivity.
Qed.

(** C6. Each call of [BurnSeed] starts with a [GetInfo] round trip of its
    own, from whatever state the reader is in: the traffic of the call
    begins with the traffic of [GetInfo]. When that round trip succeeds
    (keep-alive, then the frame of [[0x10]]) and the reply carries the key,
    the call makes one more round trip (keep-alive, then the frame whose
    payload is [0x18] followed by
    [seed || 0x06 || 0x1E || checksum(seed)], the checksum in two bytes
    big-endian, every byte of that buffer XORed with the key), and it
    returns what unframing the reply to that last transmission gives. *)
Theorem BurnSeed_on_the_wire {C : Type} `{CardDriver C}
    (seed : bytes) (c : ScardTag C) :
  (exists rest,
      wire (Token.BurnSeed seed c).1 = wire (Token.GetInfo c).1 ++ rest)
  /\ forall (k1 k2 k3 k4 : C) (r1 reply info r3 resp : bytes) (key : Z),
      Transmit keep_alive (card c) = (k1, (r1, None)) ->
      Transmit (frame [0x10]) k1 = (k2, (reply, None)) ->
      unframe reply = Return info None ->
      info !! 5%nat = Some key ->
      let payload :=
        [0x18] ++ map (fun b => Z.lxor b key)
                    (seed ++ [0x06; 0x1e]
                     ++ [checksum seed / 256; checksum seed mod 256]) in
      Transmit keep_alive k2 = (k3, (r3, None)) ->
      Transmit (frame payload) k3 = (k4, (resp, None)) ->
      Token.GetInfo c
      = (mkScardTag k2 (wire c ++ [keep_alive; frame [0x10]]), Return info None)
      /\ Token.BurnSeed seed c
         = (mkScardTag k4
              (wire c ++ [keep_alive; frame [0x10]; keep_alive; frame payload]),
            unframe resp).
Proof.
  split; [apply BurnSeed_starts_with_GetInfo|].
  intros k1 k2 k3 k4 r1 reply info r3 resp key Hk1 Hk2 Hinfo Hkey payload Hk3 Hk4.
  assert (Hget : Token.GetInfo c
                 = (mkScardTag k2 (wire c ++ [keep_alive; frame [0x10]]),
                    Return info None)).
  { unfold Token.GetInfo.
    rewrite (Token_Transceive_sent _ _ _ _ _ _ Hk1 Hk2), Hinfo. reflexivity. }
  split; [exact Hget|].
  rewrite (BurnSeed_after_info _ _ _ _ Hget), Hkey.
  change (burn_payload key seed) with payload.
  rewrite (Token_Transceive_sent payload
             (mkScardTag k2 (wire c ++ [keep_alive; frame [0x10]]))
             k3 r3 k4 resp Hk3 Hk4).
  simpl. rewrite <- app_assoc. reflexivity.
Qed.

Lemma BurnSeed_on_the_wire_witness :
  Token.BurnSeed [0x11; 0x22]
    (reader [([0x90; 0x00], None);
             ([0xaa; 0x07; 0; 0; 0; 0; 0; 0x2a; 0x2a], None);
             ([0x90; 0x00], None);
             ([0xaa; 0x02; 0x01; 0x01], None)])
  = (mkScardTag []
       [keep_alive; [0x86; 0x02; 0x10; 0x10]; keep_alive;
        [0x86; 0x08; 0x18; 0x3b; 0x08; 0x2c; 0x34; 0x7b; 0x1d; 0x55]],
     Return [0x01] None).
Proof.
  destruct (BurnSeed_on_the_wire [0x11; 0x22]
              (reader [([0x90; 0x00], None);
                       ([0xaa; 0x07; 0; 0; 0; 0; 0; 0x2a; 0x2a], None);
                       ([0x90; 0x00], None);
                       ([0xaa; 0x02; 0x01; 0x01], None)])) as [_ Hrun].
  apply (Hrun
           [([0xaa; 0x07; 0; 0; 0; 0; 0; 0x2a; 0x2a], None);
            ([0x90; 0x00], None);
            ([0xaa; 0x02; 0x01; 0x01], None)]
           [([0x90; 0x00], None); ([0xaa; 0x02; 0x01; 0x01], None)]
           [([0xaa; 0x02; 0x01; 0x01], None)]
           []
           [0x90; 0x00] [0xaa; 0x07; 0; 0; 0; 0; 0; 0x2a; 0x2a]
           [0; 0; 0; 0; 0; 0x2a] [0x90; 0x00] [0xaa; 0x02; 0x01; 0x01] 0x2a);
    reflexivity.
Defined.

(** ** [BurnSeed] and the memory of its caller *)

Section Frame.
Context {T : Type} `{Tag T}.
Variable growslice : nat -> nat -> nat.
Local Open Scope nat_scope.

Lemma unchanged_below_refl n (h : Mem.heap) : Mem.unchanged_below n h h.
Proof. split; auto. Qed.

Lemma unchanged_below_trans n (h1 h2 h3 : Mem.heap) :
  Mem.unchanged_below n h1 h2 -> Mem.unchanged_below n h2 h3 ->
  Mem.unchanged_below n h1 h3.
Proof.
  intros [Hl12 H12] [Hl23 H23]. split; [lia|].
  intros a Ha. rewrite H23, H12 by assumption. reflexivity.
Qed.

Lemma alloc_frame n (h : Mem.heap) (arr : bytes) :
  n <= length h -> Mem.unchanged_below n h (h ++ [arr]).
Proof.
  intros Hn. split; [rewrite length_app; lia|].
  intros a Ha. apply lookup_app_l. lia.
Qed.

Lemma literal_frame n vs (h h' : Mem.heap) s :
  n <= length h -> Mem.literal vs h = (s, h') ->
  Mem.unchanged_below n h h' /\ Mem.fresh n s.
Proof.
  intros Hn [= <- <-]. split; [apply alloc_frame; assumption|].
  right. assumption.
Qed.

Lemma append_frame n s vs (h h' : Mem.heap) s' :
  n <= length h -> Mem.fresh n s ->
  Mem.append growslice s vs h = (s', h') ->
  Mem.unchanged_below n h h' /\ Mem.fresh n s'.
Proof.
  intros Hn Hs. unfold Mem.append.
  destruct (Nat.leb_spec (Mem.len s + length vs) (Mem.cap s)) as [Hfit|Hgrow];
    intros [= <- <-].
  - destruct Hs as [[Hlen Hcap]|Hbase].
    + assert (vs = []) as -> by (destruct vs; [reflexivity|simpl in Hfit; lia]).
      split.
      * rewrite list_alter_id by reflexivity. apply unchanged_below_refl.
      * left. simpl. lia.
    + split; [|right; assumption].
      split; [rewrite length_alter; lia|].
      intros a Ha. apply list_lookup_alter_ne. lia.
  - split; [apply alloc_frame; assumption|]. right. assumption.
Qed.

Lemma xor_in_place_frame n key s (h : Mem.heap) :
  Mem.fresh n s -> Mem.unchanged_below n h (Mem.xor_in_place key s h).
Proof.
  intros Hs. unfold Mem.xor_in_place.
  destruct Hs as [[-> _]|Hbase]; [apply unchanged_below_refl|].
  generalize (seq 0 (Mem.len s)). intros idx.
  assert (Hgen : forall h0, Mem.unchanged_below n h h0 ->
            Mem.unchanged_below n h
              (fold_left
                 (fun h1 i => alter (alter (fun b => Z.lxor b key) (Mem.off s + i))
                                (Mem.base s) h1) idx h0)).
  { induction idx as [|i idx IH]; intros h0 Hh0; simpl; [assumption|].
    apply IH. apply (unchanged_below_trans _ _ h0); [assumption|].
    split; [rewrite length_alter; lia|].
    intros a Ha. apply list_lookup_alter_ne. lia. }
  apply Hgen, unchanged_below_refl.
Qed.

Lemma call_Tag_frame n buffer (t t' : T) (h h' : Mem.heap) r :
  n <= length h -> Mem.call_Tag buffer t h = (t', h', r) ->
  Mem.unchanged_below n h h'.
Proof.
  intros Hn. unfold Mem.call_Tag.
  destruct (Transceive (Mem.load h buffer) t) as [t0 [resp err|e]];
    intros [= _ <- _]; [apply alloc_frame; assumption|apply unchanged_below_refl].
Qed.

Lemma unchanged_below_length n (h h' : Mem.heap) :
  n <= length h -> Mem.unchanged_below n h h' -> n <= length h'.
Proof. intros Hn [Hl _]. lia. Qed.

Lemma Transceive_frame n data (t t' : T) (h h' : Mem.heap) r :
  n <= length h -> Mem.Transceive growslice data t h = (t', h', r) ->
  Mem.unchanged_below n h h'.
Proof.
  intros Hn. unfold Mem.Transceive.
  destruct (Mem.literal _ h) as [b0 h0] eqn:E0.
  destruct (literal_frame n _ _ _ _ Hn E0) as [U0 F0].
  pose proof (unchanged_below_length _ _ _ Hn U0) as L0.
  destruct (Mem.append growslice b0 _ h0) as [b1 h1] eqn:E1.
  destruct (append_frame n _ _ _ _ _ L0 F0 E1) as [U1 F1].
  pose proof (unchanged_below_length _ _ _ L0 U1) as L1.
  destruct (Mem.append growslice b1 _ h1) as [b2 h2] eqn:E2.
  destruct (append_frame n _ _ _ _ _ L1 F1 E2) as [U2 F2].
  pose proof (unchanged_below_length _ _ _ L1 U2) as L2.
  destruct (Mem.call_Tag b2 t h2) as [[t3 h3] r3] eqn:E3.
  pose proof (call_Tag_frame n _ _ _ _ _ _ L2 E3) as U3.
  assert (U : Mem.unchanged_below n h h3).
  { eauto using unchanged_below_trans. }
  destruct r3 as [resp [e|]|e]; intros [= _ <- _]; exact U.
Qed.

Lemma GetInfo_frame n (t t' : T) (h h' : Mem.heap) r :
  n <= length h -> Mem.GetInfo growslice t h = (t', h', r) ->
  Mem.unchanged_below n h h'.
Proof.
  intros Hn. unfold Mem.GetInfo.
  destruct (Mem.literal _ h) as [b0 h0] eqn:E0.
  destruct (literal_frame n _ _ _ _ Hn E0) as [U0 _].
  pose proof (unchanged_below_length _ _ _ Hn U0) as L0.
  intros E. apply (unchanged_below_trans _ _ h0); [assumption|].
  apply (Transceive_frame n _ _ _ _ _ _ L0 E).
Qed.

Lemma BurnSeed_frame n seed (t t' : T) (h h' : Mem.heap) r :
  n <= length h -> Mem.BurnSeed growslice seed t h = (t', h', r) ->
  Mem.unchanged_below n h h'.
Proof.
  intros Hn. unfold Mem.BurnSeed.
  destruct (Mem.append growslice Mem.nil_slice _ h) as [b0 h0] eqn:E0.
  assert (Fnil : Mem.fresh n Mem.nil_slice) by (left; split; reflexivity).
  destruct (append_frame n _ _ _ _ _ Hn Fnil E0) as [U0 F0].
  pose proof (unchanged_below_length _ _ _ Hn U0) as L0.
  destruct (Mem.append growslice b0 _ h0) as [b1 h1] eqn:E1.
  destruct (append_frame n _ _ _ _ _ L0 F0 E1) as [U1 F1].
  pose proof (unchanged_below_length _ _ _ L0 U1) as L1.
  destruct (Mem.append growslice b1 _ h1) as [b2 h2] eqn:E2.
  destruct (append_frame n _ _ _ _ _ L1 F1 E2) as [U2 F2].
  pose proof (unchanged_below_length _ _ _ L1 U2) as L2.
  assert (V2 : Mem.unchanged_below n h h2) by eauto using unchanged_below_trans.
  destruct (Mem.GetInfo growslice t h2) as [[t3 h3] r3] eqn:E3.
  pose proof (GetInfo_frame n _ _ _ _ _ L2 E3) as U3.
  pose proof (unchanged_below_length _ _ _ L2 U3) as L3.
  assert (V3 : Mem.unchanged_below n h h3) by eauto using unchanged_below_trans.
  destruct r3 as [data [e|]|e]; try (intros [= _ <- _]; exact V3).
  destruct (Mem.load h3 data !! 5) as [key|]; [|intros [= _ <- _]; exact V3].
  pose proof (xor_in_place_frame n key b2 h3 F2) as U4.
  pose proof (unchanged_below_length _ _ _ L3 U4) as L4.
  destruct (Mem.literal _ (Mem.xor_in_place key b2 h3)) as [b5 h5] eqn:E5.
  destruct (literal_frame n _ _ _ _ L4 E5) as [U5 F5].
  pose proof (unchanged_below_length _ _ _ L4 U5) as L5.
  destruct (Mem.append growslice b5 _ h5) as [b6 h6] eqn:E6.
  destruct (append_frame n _ _ _ _ _ L5 F5 E6) as [U6 F6].
  pose proof (unchanged_below_length _ _ _ L5 U6) as L6.
  intros E7.
  pose proof (Transceive_frame n _ _ _ _ _ _ L6 E7) as U7.
  eauto 10 using unchanged_below_trans.
Qed.
End Frame.

Lemma unchanged_below_take (h h' : Mem.heap) :
  Mem.unchanged_below (length h) h h' -> take (length h) h' = h.
Proof.
  intros [_ Hsame]. apply list_eq. intros a.
  destruct (Nat.lt_ge_cases a (length h)) as [Hlt|Hge].
  - rewrite lookup_take_lt by assumption. apply Hsame. assumption.
  - rewrite lookup_take_ge by assumption. symmetry.
    apply lookup_ge_None_2. assumption.
Qed.

Lemma unchanged_below_load (h h' : Mem.heap) (s : Mem.slice) :
  Mem.valid h s = true -> Mem.unchanged_below (length h) h h' ->
  Mem.load h' s = Mem.load h s.
Proof.
  unfold Mem.valid, Mem.load. intros Hv [_ Hsame].
  apply andb_true_iff in Hv as [Hlen Hcap]. apply Nat.leb_le in Hlen.
  apply orb_true_iff in Hcap as [Hzero|Harr].
  - apply Nat.eqb_eq in Hzero.
    replace (Mem.len s) with 0%nat by lia. reflexivity.
  - destruct (h !! Mem.base s) as [arr|] eqn:Hbase; [|discriminate].
    rewrite Hsame, Hbase; [reflexivity|].
    apply lookup_lt_Some in Hbase. assumption.
Qed.

(** C10. [BurnSeed] leaves the memory of its caller alone: every backing
    array that existed before the call holds the same bytes after it (the
    appends and the XOR loop write only to arrays allocated during the
    call), so the seed slice denotes the same bytes after the call as
    before, whatever the tag answers and however the call ends. *)
Theorem BurnSeed_keeps_seed {T : Type} `{Tag T} (growslice : nat -> nat -> nat)
    (seed : Mem.slice) (t : T) (h : Mem.heap) :
  Mem.valid h seed = true ->
  let h' := (Mem.BurnSeed growslice seed t h).1.2 in
  take (length h) h' = h /\ Mem.load h' seed = Mem.load h seed.
Proof.
  intros Hv. destruct (Mem.BurnSeed growslice seed t h) as [[t' h'] r] eqn:E.
  simpl. pose proof (BurnSeed_frame growslice (length h) _ _ _ _ _ _ (le_n _) E) as U.
  split; [apply unchanged_below_take | apply unchanged_below_load]; assumption.
Qed.

Lemma BurnSeed_keeps_seed_witness :
  let h := [[0x11; 0x22; 0x99]] in
  let seed := Mem.mkSlice 0 0 2 3 in
  let h' :=
    (Mem.BurnSeed (fun _ need => (2 * need)%nat) seed
       (reader [([0x90; 0x00], None);
                ([0xaa; 0x07; 0; 0; 0; 0; 0; 0x2a; 0x2a], None);
                ([0x90; 0x00], None);
                ([0xaa; 0x02; 0x01; 0x01], None)]) h).1.2 in
  take (length h) h' = h /\ Mem.load h' seed = Mem.load h seed.
Proof.
  apply (BurnSeed_keeps_seed (fun _ need => (2 * need)%nat)
           (Mem.mkSlice 0 0 2 3)
           (reader [([0x90; 0x00], None);
                    ([0xaa; 0x07; 0; 0; 0; 0; 0; 0x2a; 0x2a], None);
                    ([0x90; 0x00], None);
                    ([0xaa; 0x02; 0x01; 0x01], None)])
           [[0x11; 0x22; 0x99]]).
  reflexivity.
Defined.

(** The same run in full: the seed array is the first of the store, the
    buffer that was XORed with the key [0x2A] is the third. *)
Example BurnSeed_memory_example :
  (Mem.BurnSeed (fun _ need => (2 * need)%nat) (Mem.mkSlice 0 0 2 3)
     (reader [([0x90; 0x00], None);
              ([0xaa; 0x07; 0; 0; 0; 0; 0; 0x2a; 0x2a], None);
              ([0x90; 0x00], None);
              ([0xaa; 0x02; 0x01; 0x01], None)])
     [[0x11; 0x22; 0x99]]).1.2
  = [[0x11; 0x22; 0x99];
     [0x11; 0x22; 0x06; 0x1e];
     [0x3b; 0x08; 0x2c; 0x34; 0x7b; 0x1d; 0; 0; 0; 0; 0; 0];
     [0x10];
     [0x86; 0x02];
     [0x86; 0x02; 0x10; 0x10; 0; 0];
     [0xaa; 0x07; 0; 0; 0; 0; 0; 0x2a; 0x2a];
     [0x18];
     [0x18; 0x3b; 0x08; 0x2c; 0x34; 0x7b; 0x1d; 0; 0; 0; 0; 0; 0; 0];
     [0x86; 0x08];
     [0x86; 0x08; 0x18; 0x3b; 0x08; 0x2c; 0x34; 0x7b; 0x1d; 0x55;
      0; 0; 0; 0; 0; 0; 0; 0];
     [0xaa; 0x02; 0x01; 0x01]].
Proof. reflexivity. Qed.

(** ** The memory reading agrees with the value reading *)

Section Refinement.
Context {T : Type} `{Tag T}.
Variable growslice : nat -> nat -> nat.
Local Open Scope nat_scope.

(** What [valid] says. *)
Lemma valid_inv (h : Mem.heap) (s : Mem.slice) :
  Mem.valid h s = true ->
  Mem.len s <= Mem.cap s
  /\ (Mem.cap s = 0
      \/ exists arr, h !! Mem.base s = Some arr
                     /\ Mem.off s + Mem.cap s <= length arr).
Proof.
  unfold Mem.valid. intros Hv.
  apply andb_true_iff in Hv as [Hlen Hcap]. apply Nat.leb_le in Hlen.
  split; [assumption|].
  apply orb_true_iff in Hcap as [Hzero|Harr].
  - left. apply Nat.eqb_eq. assumption.
  - right. destruct (h !! Mem.base s) as [arr|]; [|discriminate].
    exists arr. split; [reflexivity|]. apply Nat.leb_le. assumption.
Qed.

Lemma valid_intro (h : Mem.heap) (s : Mem.slice) arr :
  Mem.len s <= Mem.cap s -> h !! Mem.base s = Some arr ->
  Mem.off s + Mem.cap s <= length arr -> Mem.valid h s = true.
Proof.
  intros Hlen Hbase Hcap. unfold Mem.valid. rewrite Hbase.
  apply andb_true_iff. split; [apply Nat.leb_le; assumption|].
  apply orb_true_iff. right. apply Nat.leb_le. assumption.
Qed.

Lemma load_length (h : Mem.heap) (s : Mem.slice) :
  Mem.valid h s = true -> length (Mem.load h s) = Mem.len s.
Proof.
  intros Hv. destruct (valid_inv h s Hv) as [Hlen [Hzero|(arr & Hbase & Hcap)]];
    unfold Mem.load.
  - replace (Mem.len s) with 0 by lia. reflexivity.
  - rewrite Hbase. simpl. rewrite length_take, length_drop. lia.
Qed.

Lemma unchanged_below_valid (h h' : Mem.heap) (s : Mem.slice) :
  Mem.valid h s = true -> Mem.unchanged_below (length h) h h' ->
  Mem.valid h' s = true.
Proof.
  intros Hv [_ Hsame].
  destruct (valid_inv h s Hv) as [Hlen [Hzero|(arr & Hbase & Hcap)]].
  - unfold Mem.valid. apply andb_true_iff. split; [apply Nat.leb_le; lia|].
    apply orb_true_iff. left. apply Nat.eqb_eq. assumption.
  - apply (valid_intro h' s arr); try assumption.
    rewrite Hsame; [assumption|]. apply lookup_lt_Some in Hbase. assumption.
Qed.

Lemma literal_load vs (h h' : Mem.heap) s :
  Mem.literal vs h = (s, h') ->
  Mem.load h' s = vs /\ Mem.valid h' s = true.
Proof.
  intros [= <- <-].
  assert (Hnew : (h ++ [vs]) !! length h = Some vs).
  { rewrite lookup_app_r by lia. rewrite Nat.sub_diag. reflexivity. }
  split.
  - unfold Mem.load. simpl. rewrite Hnew. simpl.
    rewrite drop_0. apply firstn_all.
  - apply (valid_intro _ _ vs); simpl; auto.
Qed.

Lemma inserts_slice (arr vs : bytes) (o l : nat) :
  o + l + length vs <= length arr ->
  take (l + length vs) (drop o (list_inserts (o + l) vs arr))
  = take l (drop o arr) ++ vs.
Proof.
  intros Hfit. apply list_eq. intros i.
  destruct (Nat.lt_ge_cases i l) as [Hlt|Hge].
  - rewrite lookup_take_lt, lookup_drop by lia.
    rewrite list_lookup_inserts_lt by lia.
    rewrite lookup_app_l by (rewrite length_take, length_drop; lia).
    rewrite lookup_take_lt, lookup_drop by lia. reflexivity.
  - rewrite (lookup_app_r (take l (drop o arr)))
      by (rewrite length_take, length_drop; lia).
    rewrite length_take, length_drop.
    replace (l `min` (length arr - o)) with l by lia.
    destruct (Nat.lt_ge_cases i (l + length vs)) as [Hin|Hout].
    + rewrite lookup_take_lt, lookup_drop by lia.
      rewrite list_lookup_inserts by lia. f_equal. lia.
    + rewrite lookup_take_ge by lia. symmetry.
      apply lookup_ge_None_2. lia.
Qed.

Lemma append_load s vs (h h' : Mem.heap) s' :
  Mem.valid h s = true ->
  Mem.append growslice s vs h = (s', h') ->
  Mem.load h' s' = Mem.load h s ++ vs /\ Mem.valid h' s' = true.
Proof.
  intros Hv. pose proof (load_length h s Hv) as Hll.
  destruct (valid_inv h s Hv) as [Hlen Harr]. unfold Mem.append.
  destruct (Nat.leb_spec (Mem.len s + length vs) (Mem.cap s)) as [Hfit|Hgrow];
    intros [= <- <-].
  - destruct Harr as [Hzero|(arr & Hbase & Hcap)].
    + assert (vs = []) as -> by (destruct vs; [reflexivity|simpl in Hfit; lia]).
      rewrite list_alter_id by reflexivity. rewrite app_nil_r.
      split.
      * unfold Mem.load. simpl. replace (Mem.len s) with 0 by lia. reflexivity.
      * unfold Mem.valid. simpl. apply andb_true_iff.
        split; [apply Nat.leb_le; lia|].
        apply orb_true_iff. left. apply Nat.eqb_eq. assumption.
    + assert (Hnew : alter (list_inserts (Mem.off s + Mem.len s) vs) (Mem.base s) h
                     !! Mem.base s
                     = Some (list_inserts (Mem.off s + Mem.len s) vs arr)).
      { rewrite list_lookup_alter_eq, Hbase. reflexivity. }
      split.
      * unfold Mem.load. simpl. rewrite Hnew, Hbase. simpl.
        apply inserts_slice. lia.
      * eapply valid_intro; [|exact Hnew|]; simpl; [assumption|].
        rewrite length_inserts. assumption.
  - set (n := Mem.len s + length vs).
    set (c := n `max` growslice (Mem.cap s) n).
    assert (Hnew : (h ++ [Mem.load h s ++ vs ++ replicate (c - n) 0%Z]) !! length h
                   = Some (Mem.load h s ++ vs ++ replicate (c - n) 0%Z)).
    { rewrite lookup_app_r by lia. rewrite Nat.sub_diag. reflexivity. }
    split.
    + unfold Mem.load at 1. simpl. rewrite Hnew. simpl. rewrite drop_0.
      rewrite app_assoc. apply take_app_length'.
      rewrite length_app, Hll. reflexivity.
    + eapply valid_intro; [|exact Hnew|]; simpl; [lia|].
      rewrite !length_app, length_replicate, Hll. lia.
Qed.
Lemma xor_array_lookup (g : Z -> Z) (o k : nat) (arr : bytes) (j : nat) :
  fold_left (fun a i => alter g (o + i) a) (seq 0 k) arr !! j
  = if decide (o <= j < o + k) then g <$> arr !! j else arr !! j.
Proof.
  induction k as [|k IH].
  - simpl. destruct (decide (o <= j < o + 0)); [lia|reflexivity].
  - rewrite seq_S, fold_left_app. simpl.
    destruct (decide (j = o + k)) as [->|Hne].
    + rewrite list_lookup_alter_eq, IH.
      destruct (decide (o <= o + k < o + k)); [lia|].
      destruct (decide (o <= o + k < o + S k)); [reflexivity|lia].
    + rewrite list_lookup_alter_ne, IH by lia.
      destruct (decide (o <= j < o + k)), (decide (o <= j < o + S k));
        reflexivity || lia.
Qed.

Lemma xor_array_length (g : Z -> Z) (o : nat) (idx : list nat) (arr : bytes) :
  length (fold_left (fun a i => alter g (o + i) a) idx arr) = length arr.
Proof.
  revert arr. induction idx as [|i idx IH]; intros arr; simpl; [reflexivity|].
  rewrite IH. apply length_alter.
Qed.

Lemma xor_heap_array (g : Z -> Z) (a o : nat) (idx : list nat) (h : Mem.heap) :
  fold_left (fun h i => alter (alter g (o + i)) a h) idx h
  = alter (fun arr => fold_left (fun arr i => alter g (o + i) arr) idx arr) a h.
Proof.
  revert h. induction idx as [|i idx IH]; intros h; simpl.
  - symmetry. apply list_alter_id. reflexivity.
  - rewrite IH, list_alter_alter_eq. reflexivity.
Qed.

Lemma map_fmap (g : Z -> Z) (l : bytes) : map g l = g <$> l.
Proof. induction l as [|b l IH]; simpl; [|rewrite IH]; reflexivity. Qed.

Lemma xor_in_place_load key s (h : Mem.heap) :
  Mem.valid h s = true ->
  Mem.load (Mem.xor_in_place key s h) s
  = map (fun b => Z.lxor b key) (Mem.load h s)
  /\ Mem.valid (Mem.xor_in_place key s h) s = true.
Proof.
  intros Hv. destruct (valid_inv h s Hv) as [Hlen [Hzero|(arr & Hbase & Hcap)]].
  - unfold Mem.xor_in_place, Mem.load.
    replace (Mem.len s) with 0 by lia. simpl. auto.
  - unfold Mem.xor_in_place. rewrite xor_heap_array.
    set (g := fun b => Z.lxor b key).
    set (arr' := fold_left (fun a i => alter g (Mem.off s + i) a)
                   (seq 0 (Mem.len s)) arr).
    assert (Hnew : alter (fun a => fold_left (fun a i => alter g (Mem.off s + i) a)
                                     (seq 0 (Mem.len s)) a) (Mem.base s) h
                   !! Mem.base s = Some arr').
    { rewrite list_lookup_alter_eq, Hbase. reflexivity. }
    assert (Hlarr : length arr' = length arr) by apply xor_array_length.
    split.
    + unfold Mem.load. rewrite Hnew, Hbase. simpl. rewrite map_fmap.
      apply list_eq. intros i. rewrite list_lookup_fmap.
      destruct (Nat.lt_ge_cases i (Mem.len s)) as [Hlt|Hge].
      * rewrite !lookup_take_lt, !lookup_drop by assumption.
        unfold arr'. rewrite xor_array_lookup.
        destruct (decide (Mem.off s <= Mem.off s + i < Mem.off s + Mem.len s));
          [reflexivity|lia].
      * rewrite !lookup_take_ge by assumption. reflexivity.
    + eapply valid_intro; [|exact Hnew|]; [assumption|]. rewrite Hlarr. assumption.
Qed.
Lemma subslice_length (lo hi : nat) (l : bytes) :
  hi <= length l -> length (subslice lo hi l) = hi - lo.
Proof.
  intros Hhi. unfold subslice. rewrite length_take, length_drop. lia.
Qed.

Lemma unframe_load resp (h : Mem.heap) :
  Mem.valid h resp = true ->
  Mem.value_of h (Mem.unframe resp h) = unframe (Mem.load h resp)
  /\ (forall s, Mem.unframe resp h = Mem.ReturnS s None ->
                Mem.len s = length (Mem.load h s)).
Proof.
  intros Hv. pose proof (load_length h resp Hv) as Hll.
  unfold Mem.unframe.
  destruct (unframe (Mem.load h resp)) as [p [e|]|e] eqn:E; simpl.
  - rewrite (unframe_error_inv _ _ _ E). split; [reflexivity|discriminate].
  - destruct (unframe_Return_inv _ _ E) as (_ & n & _ & Hc & Hi & Hp).
    apply lookup_lt_Some in Hc. rewrite Hll in Hc.
    assert (Hlp : length p = checksum_index n - 2).
    { rewrite Hp. apply subslice_length. lia. }
    destruct (valid_inv h resp Hv) as [Hlen [Hzero|(arr & Hbase & Hcap)]]; [lia|].
    assert (Hload : Mem.load h
                      (Mem.mkSlice (Mem.base resp) (Mem.off resp + 2) (length p)
                         (Mem.cap resp - 2)) = p).
    { rewrite Hp at 2. rewrite Hlp. unfold Mem.load, subslice. simpl.
      rewrite Hbase. simpl. apply list_eq. intros i.
      destruct (Nat.lt_ge_cases i (checksum_index n - 2)) as [Hlt|Hge].
      - rewrite !lookup_take_lt, !lookup_drop by lia.
        rewrite lookup_take_lt, lookup_drop by lia. f_equal. lia.
      - rewrite !lookup_take_ge by lia. reflexivity. }
    split; [rewrite Hload; reflexivity|].
    intros s [= <-]. rewrite Hload. reflexivity.
  - split; [reflexivity|discriminate].
Qed.

Lemma call_Tag_value buffer (t t' : T) (h h' : Mem.heap) r :
  Mem.call_Tag buffer t h = (t', h', r) ->
  Transceive (Mem.load h buffer) t = (t', Mem.value_of h' r)
  /\ (forall resp err, r = Mem.ReturnS resp err -> Mem.valid h' resp = true).
Proof.
  unfold Mem.call_Tag.
  destruct (Transceive (Mem.load h buffer) t) as [t0 [resp err|e]];
    intros [= <- <- <-]; [|split; [reflexivity|discriminate]].
  destruct (literal_load resp h (h ++ [resp])
              (Mem.mkSlice (length h) 0 (length resp) (length resp)) eq_refl)
    as [Hload Hvalid].
  split; [simpl; rewrite Hload; reflexivity|].
  intros resp' err' [= <- _]. assumption.
Qed.

Lemma Transceive_value data (t t' : T) (h h' : Mem.heap) r :
  Mem.valid h data = true ->
  Mem.Transceive growslice data t h = (t', h', r) ->
  Token.Transceive (Mem.load h data) t = (t', Mem.value_of h' r)
  /\ (forall s, r = Mem.ReturnS s None -> Mem.len s = length (Mem.load h' s)).
Proof.
  intros Hv. unfold Mem.Transceive, Token.Transceive, frame.
  rewrite (load_length h data Hv).
  destruct (Mem.literal _ h) as [b0 h0] eqn:E0.
  destruct (literal_load _ _ _ _ E0) as [D0 V0].
  destruct (literal_frame (length h) _ _ _ _ (le_n _) E0) as [U0 _].
  rewrite (unchanged_below_load h h0 data Hv U0).
  destruct (Mem.append growslice b0 _ h0) as [b1 h1] eqn:E1.
  destruct (append_load _ _ _ _ _ V0 E1) as [D1 V1].
  assert (U1 : Mem.unchanged_below (length h) h h1).
  { apply (unchanged_below_trans _ _ h0); [assumption|].
    destruct (literal_frame (length h) _ _ _ _ (le_n _) E0) as [_ F0].
    apply (append_frame growslice (length h) _ _ _ _ _
             (unchanged_below_length _ _ _ (le_n _) U0) F0 E1). }
  rewrite (unchanged_below_load h h1 data Hv U1).
  destruct (Mem.append growslice b1 _ h1) as [b2 h2] eqn:E2.
  destruct (append_load _ _ _ _ _ V1 E2) as [D2 V2].
  destruct (Mem.call_Tag b2 t h2) as [[t3 h3] r3] eqn:E3.
  destruct (call_Tag_value _ _ _ _ _ _ E3) as [D3 V3].
  rewrite D2, D1, D0 in D3. rewrite <- app_assoc in D3. rewrite D3.
  destruct r3 as [resp [e|]|e]; simpl; intros [= <- <- <-].
  - split; [reflexivity|discriminate].
  - destruct (unframe_load resp h3 (V3 _ _ eq_refl)) as [Dv Dl].
    rewrite Dv. split; [reflexivity|]. intros s Hs. apply Dl. assumption.
  - split; [reflexivity|discriminate].
Qed.

Lemma GetInfo_value (t t' : T) (h h' : Mem.heap) r :
  Mem.GetInfo growslice t h = (t', h', r) ->
  Token.GetInfo t = (t', Mem.value_of h' r)
  /\ (forall s, r = Mem.ReturnS s None -> Mem.len s = length (Mem.load h' s)).
Proof.
  unfold Mem.GetInfo, Token.GetInfo.
  destruct (Mem.literal _ h) as [b0 h0] eqn:E0.
  destruct (literal_load _ _ _ _ E0) as [D0 V0].
  intros E. destruct (Transceive_value _ _ _ _ _ _ V0 E) as [D L].
  rewrite D0 in D. auto.
Qed.
(** [Mem.BurnSeed] computes what [Token.BurnSeed] computes on the bytes of
    the seed: the same tag state, and a result denoting the same bytes. *)
Lemma BurnSeed_value seed (t t' : T) (h h' : Mem.heap) r :
  Mem.valid h seed = true ->
  Mem.BurnSeed growslice seed t h = (t', h', r) ->
  Token.BurnSeed (Mem.load h seed) t = (t', Mem.value_of h' r).
Proof.
  intros Hv. unfold Mem.BurnSeed, Token.BurnSeed, AppendUint16.
  assert (Vnil : Mem.valid h Mem.nil_slice = true) by reflexivity.
  assert (Fnil : Mem.fresh (length h) Mem.nil_slice) by (left; split; reflexivity).
  destruct (Mem.append growslice Mem.nil_slice _ h) as [b0 h0] eqn:E0.
  destruct (append_load _ _ _ _ _ Vnil E0) as [D0 V0].
  destruct (append_frame growslice _ _ _ _ _ _ (le_n _) Fnil E0) as [U0 F0].
  pose proof (unchanged_below_length _ _ _ (le_n _) U0) as L0.
  destruct (Mem.append growslice b0 _ h0) as [b1 h1] eqn:E1.
  destruct (append_load _ _ _ _ _ V0 E1) as [D1 V1].
  destruct (append_frame growslice _ _ _ _ _ _ L0 F0 E1) as [U1 F1].
  assert (W1 : Mem.unchanged_below (length h) h h1)
    by eauto using unchanged_below_trans.
  rewrite (unchanged_below_load h h1 seed Hv W1).
  destruct (Mem.append growslice b1 _ h1) as [b2 h2] eqn:E2.
  destruct (append_load _ _ _ _ _ V1 E2) as [D2 V2].
  rewrite D1, D0 in D2. simpl in D2.
  destruct (Mem.GetInfo growslice t h2) as [[t3 h3] r3] eqn:E3.
  destruct (GetInfo_value _ _ _ _ _ E3) as [D3 L3].
  pose proof (GetInfo_frame growslice (length h2) _ _ _ _ _ (le_n _) E3) as U3.
  rewrite D3.
  destruct r3 as [data [e|]|e]; cbn [Mem.value_of];
    try (intros [= <- <- <-]; reflexivity).
  rewrite <- (L3 data eq_refl).
  destruct (Mem.load h3 data !! 5) as [key|]; [|intros [= <- <- <-]; reflexivity].
  pose proof (unchanged_below_valid h2 h3 b2 V2 U3) as V3.
  destruct (xor_in_place_load key b2 h3 V3) as [D4 V4].
  rewrite (unchanged_below_load h2 h3 b2 V2 U3), D2 in D4.
  destruct (Mem.literal _ (Mem.xor_in_place key b2 h3)) as [b5 h5] eqn:E5.
  destruct (literal_load _ _ _ _ E5) as [D5 V5].
  destruct (literal_frame (length (Mem.xor_in_place key b2 h3)) _ _ _ _ (le_n _) E5)
    as [U5 _].
  rewrite (unchanged_below_load _ h5 b2 V4 U5), D4.
  destruct (Mem.append growslice b5 _ h5) as [b6 h6] eqn:E6.
  destruct (append_load _ _ _ _ _ V5 E6) as [D6 V6].
  rewrite D5 in D6.
  intros E7. destruct (Transceive_value _ _ _ _ _ _ V6 E7) as [D7 _].
  rewrite D6 in D7. exact D7.
Qed.
End Refinement.

(** * Further properties of the code *)

(** ** [xor] *)

Lemma xor_fold (l : bytes) (a : Z) : fold_left Z.lxor l a = Z.lxor a (xor l).
Proof.
  unfold xor. revert a. induction l as [|b l IH]; intros a; simpl.
  - rewrite Z.lxor_0_r. reflexivity.
  - rewrite (IH (Z.lxor a b)), Z.lxor_0_l, (IH b), Z.lxor_assoc. reflexivity.
Qed.

Lemma xor_cons (b : Z) (l : bytes) : xor (b :: l) = Z.lxor b (xor l).
Proof. unfold xor at 1. simpl. apply xor_fold. Qed.

Lemma xor_app (p q : bytes) : xor (p ++ q) = Z.lxor (xor p) (xor q).
Proof.
  unfold xor at 1. rewrite fold_left_app. fold (xor p). apply xor_fold.
Qed.

(** X1. The XOR fold does not depend on the order of the bytes: two byte
    strings that are rearrangements of one another have the same fold. *)
Theorem xor_order_independent (p q : bytes) :
  Permutation p q -> xor p = xor q.
Proof.
  induction 1 as [|b p q _ IH|a b p|p q r _ IH1 _ IH2].
  - reflexivity.
  - rewrite !xor_cons, IH. reflexivity.
  - rewrite !xor_cons, <- !Z.lxor_assoc, (Z.lxor_comm b a). reflexivity.
  - rewrite IH1. exact IH2.
Qed.

Lemma xor_order_independent_witness :
  xor [0x11; 0x22; 0x33] = xor [0x33; 0x22; 0x11].
Proof.
  apply (xor_order_independent [0x11; 0x22; 0x33] [0x33; 0x22; 0x11]).
  apply (Permutation_rev [0x11; 0x22; 0x33]).
Defined.

Lemma lxor_byte (a b : Z) : is_byte a -> is_byte b -> is_byte (Z.lxor a b).
Proof.
  unfold is_byte. intros Ha Hb.
  assert (Hnn : 0 <= Z.lxor a b) by (apply Z.lxor_nonneg; lia).
  split; [assumption|].
  destruct (Z.eq_dec (Z.lxor a b) 0) as [->|Hne]; [lia|].
  change 256 with (2 ^ 8). apply Z.log2_lt_pow2; [lia|].
  eapply Z.le_lt_trans; [apply Z.log2_lxor; lia|].
  apply Z.max_lub_lt.
  - destruct (Z.eq_dec a 0) as [->|?]; [reflexivity|apply Z.log2_lt_pow2; lia].
  - destruct (Z.eq_dec b 0) as [->|?]; [reflexivity|apply Z.log2_lt_pow2; lia].
Qed.

(** X2. The XOR fold of bytes is a byte: the fold never leaves the range of
    [uint8]. *)
Theorem xor_is_byte (data : bytes) :
  Forall is_byte data -> is_byte (xor data).
Proof.
  induction 1 as [|b data Hb _ IH].
  - unfold is_byte, xor. simpl. lia.
  - rewrite xor_cons. apply lxor_byte; assumption.
Qed.

Lemma xor_is_byte_witness : is_byte (xor [0xff; 0x0f; 0x80]).
Proof.
  apply (xor_is_byte [0xff; 0x0f; 0x80]).
  repeat constructor; unfold is_byte; lia.
Defined.

(** ** The envelope *)

(** X3. In every frame built by [Token.Transceive], the bytes after the
    length byte (the payload and its checksum) XOR to zero. *)
Theorem frame_xor_zero (data : bytes) :
  xor (drop 2 (frame data)) = 0.
Proof.
  unfold frame. simpl. rewrite drop_0, xor_app, xor_cons. simpl.
  rewrite Z.lxor_0_r. apply Z.lxor_nilpotent.
Qed.

(** X4. A frame is three bytes longer than its payload, and a frame of
    bytes is made of bytes, whatever the length of the payload. *)
Theorem frame_shape (data : bytes) :
  Forall is_byte data ->
  length (frame data) = (length data + 3)%nat
  /\ Forall is_byte (frame data).
Proof.
  intros Hb. unfold frame. split.
  - simpl. rewrite length_app. simpl. lia.
  - repeat apply Forall_cons_2.
    + unfold is_byte. lia.
    + apply Z.mod_pos_bound. lia.
    + apply Forall_app_2; [assumption|].
      apply Forall_cons_2; [apply xor_is_byte; assumption|constructor].
Qed.

Lemma frame_shape_witness :
  length (frame [0x10]) = 4%nat /\ Forall is_byte (frame [0x10]).
Proof.
  apply (frame_shape [0x10]). repeat constructor; unfold is_byte; lia.
Defined.

(** A well-formed reply, followed by anything, is accepted. *)
Lemma unframe_wellformed (p rest : bytes) :
  (length p <= 253)%nat ->
  unframe (0xaa :: (Z.of_nat (length p) + 1) :: p ++ xor p :: rest)
  = Return p None.
Proof.
  intros Hlen.
  assert (Hi : checksum_index (Z.of_nat (length p) + 1) = S (S (length p))).
  { rewrite checksum_index_small by lia. lia. }
  rewrite (unframe_checked _ (Z.of_nat (length p) + 1) (xor p));
    rewrite ?Hi; try reflexivity; try lia.
  - unfold subslice. simpl. rewrite Nat.sub_0_r, drop_0, take_app_length, Z.eqb_refl.
    reflexivity.
  - simpl. rewrite lookup_app_r by lia. rewrite Nat.sub_diag. reflexivity.
Qed.

Lemma checksum_index_byte (n : Z) :
  is_byte n -> (2 <= checksum_index n)%nat ->
  1 <= n <= 254 /\ checksum_index n = S (Z.to_nat n).
Proof.
  unfold is_byte. intros Hn Hi. rewrite checksum_index_wrap in Hi.
  assert (Hn' : 1 <= n <= 254).
  { destruct (Z.eq_dec n 255) as [->|?]; [vm_compute in Hi; lia|].
    destruct (Z.eq_dec n 0) as [->|?]; [vm_compute in Hi; lia|]. lia. }
  split; [assumption|]. apply checksum_index_small. lia.
Qed.

(** X5. What [Token.Transceive] accepts. A reply made of bytes is unframed
    to the payload [p] exactly when it is [0xAA], the length byte
    [len(p)+1], the bytes of [p] and their XOR fold, followed by any bytes
    at all, with [p] at most 253 bytes long. *)
Theorem unframe_accepts_iff (resp p : bytes) :
  Forall is_byte resp ->
  unframe resp = Return p None
  <-> (length p <= 253)%nat
      /\ exists rest,
          resp = 0xaa :: (Z.of_nat (length p) + 1) :: p ++ xor p :: rest.
Proof.
  intros Hb. split.
  - intros Hp.
    destruct (unframe_Return_inv resp p Hp) as (H0 & n & H1 & Hc & Hi & Hpay).
    assert (Hn : is_byte n).
    { apply (proj1 (Forall_lookup _ _) Hb 1%nat n H1). }
    destruct (checksum_index_byte n Hn Hi) as [Hrange Hidx].
    pose proof (lookup_lt_Some _ _ _ Hc) as Hlt.
    assert (Hlp : length p = (checksum_index n - 2)%nat).
    { rewrite Hpay. unfold subslice. rewrite length_take, length_drop. lia. }
    split; [lia|].
    exists (drop (S (checksum_index n)) resp).
    replace (Z.of_nat (length p) + 1) with n by lia.
    destruct resp as [|h [|n' tl]]; try discriminate.
    injection H0 as ->. injection H1 as ->. do 2 f_equal.
    rewrite Hidx in Hc, Hpay |- *. simpl in Hc, Hpay |- *.
    unfold subslice in Hpay. simpl in Hpay. rewrite drop_0 in Hpay.
    replace (Z.to_nat n) with (S (Z.to_nat n - 1)) in Hc |- * by lia.
    simpl in Hc. rewrite <- (take_drop_middle _ _ _ Hc) at 1.
    rewrite <- Hpay. reflexivity.
  - intros [Hlen [rest ->]]. apply unframe_wellformed. assumption.
Qed.

Lemma unframe_accepts_iff_witness :
  (unframe [0xaa; 0x03; 0x41; 0x42; 0x03; 0x90; 0x00] = Return [0x41; 0x42] None
   <-> (length [0x41; 0x42] <= 253)%nat
       /\ exists rest,
           [0xaa; 0x03; 0x41; 0x42; 0x03; 0x90; 0x00]
           = 0xaa :: (Z.of_nat (length [0x41; 0x42]) + 1)
               :: [0x41; 0x42] ++ xor [0x41; 0x42] :: rest).
Proof.
  apply (unframe_accepts_iff [0xaa; 0x03; 0x41; 0x42; 0x03; 0x90; 0x00]
           [0x41; 0x42]).
  repeat constructor; unfold is_byte; lia.
Defined.

(** X6. Bytes after the checksum are ignored: a reply that [unframe] handles
    without panicking, whether it is accepted or refused with an error, is
    handled the same way with anything appended to it. *)
Theorem unframe_ignores_trailing (resp extra : bytes) :
  (forall e, unframe resp <> Panic e) ->
  unframe (resp ++ extra) = unframe resp.
Proof.
  unfold unframe. intros Hnp.
  destruct (resp !! 0%nat) as [h|] eqn:H0; [|exfalso; eapply Hnp; reflexivity].
  rewrite (lookup_app_l_Some _ _ _ _ H0).
  destruct (negb (h =? 0xaa)); [reflexivity|].
  destruct (resp !! 1%nat) as [n|] eqn:H1; [|exfalso; eapply Hnp; reflexivity].
  rewrite (lookup_app_l_Some _ _ _ _ H1). cbv zeta in Hnp |- *.
  destruct (resp !! checksum_index n) as [c|] eqn:Hc;
    [|exfalso; eapply Hnp; reflexivity].
  rewrite (lookup_app_l_Some _ _ _ _ Hc).
  destruct (Nat.leb_spec 2 (checksum_index n)) as [Hi|_]; [|reflexivity].
  pose proof (lookup_lt_Some _ _ _ Hc) as Hlt.
  assert (Hsub : subslice 2 (checksum_index n) (resp ++ extra)
                 = subslice 2 (checksum_index n) resp).
  { unfold subslice. rewrite drop_app_le by lia.
    apply take_app_le. rewrite length_drop. lia. }
  rewrite Hsub. reflexivity.
Qed.

Lemma unframe_ignores_trailing_witness :
  unframe ([0xaa; 0x02; 0x01; 0x01] ++ [0x90; 0x00])
  = unframe [0xaa; 0x02; 0x01; 0x01].
Proof.
  apply (unframe_ignores_trailing [0xaa; 0x02; 0x01; 0x01] [0x90; 0x00]).
  intros e. discriminate.
Defined.

(** X7. When [Token.Transceive] crashes on a reply. A reply made of bytes
    makes [unframe] panic exactly when it is empty, or when its header is
    [0xAA] and it has no length byte, or declares the length 0 or 255, or is
    shorter than the declared length plus two. *)
Theorem unframe_panics_iff (resp : bytes) :
  Forall is_byte resp ->
  (exists e, unframe resp = Panic e)
  <-> resp = []
      \/ (resp !! 0%nat = Some 0xaa
          /\ (length resp = 1%nat
              \/ exists n,
                  resp !! 1%nat = Some n
                  /\ (n = 0 \/ n = 255 \/ Z.of_nat (length resp) < n + 2))).
Proof.
  intros Hb. unfold unframe.
  destruct resp as [|h tl]; [split; [auto|intros _; eexists; reflexivity]|].
  change ((h :: tl) !! 0%nat) with (Some h). cbv beta iota.
  destruct (h =? 0xaa) eqn:Hh; cbn [negb].
  2: { apply Z.eqb_neq in Hh. split; [intros [e He]; discriminate He|].
       intros [Hnil|[[= ?] _]]; [discriminate Hnil|contradiction]. }
  apply Z.eqb_eq in Hh. subst h.
  destruct tl as [|n tl].
  { simpl. split; [intros _; right; auto|intros _; eexists; reflexivity]. }
  change ((0xaa :: n :: tl) !! 1%nat) with (Some n). cbv beta iota zeta.
  assert (Hn : is_byte n).
  { apply (proj1 (Forall_lookup _ _) Hb 1%nat n). reflexivity. }
  destruct (Z.eq_dec n 0) as [->|Hn0].
  { split; [intros _; right; split; [reflexivity|right; eauto]|].
    intros _. eexists. reflexivity. }
  destruct (Z.eq_dec n 255) as [->|Hn255].
  { split; [intros _; right; split; [reflexivity|right; eauto]|].
    intros _. eexists. reflexivity. }
  assert (Hi : checksum_index n = S (Z.to_nat n)).
  { apply checksum_index_small. unfold is_byte in Hn. lia. }
  rewrite Hi.
  destruct ((0xaa :: n :: tl) !! S (Z.to_nat n)) as [c|] eqn:Hc.
  - apply lookup_lt_Some in Hc. simpl in Hc.
    replace (2 <=? S (Z.to_nat n))%nat with true
      by (symmetry; apply Nat.leb_le; unfold is_byte in Hn; lia).
    split.
    + intros [e He]. destruct (negb _) in He; discriminate He.
    + intros [Hnil|[_ [Hone|(n' & [= <-] & [?|[?|Hshort]])]]];
        [discriminate Hnil|simpl in Hone; lia|contradiction|contradiction|].
      simpl in Hshort. unfold is_byte in Hn. lia.
  - apply lookup_ge_None in Hc. simpl in Hc.
    split; [|intros _; eexists; reflexivity].
    intros _. right. split; [reflexivity|]. right. exists n.
    split; [reflexivity|]. right. right. simpl. unfold is_byte in Hn. lia.
Qed.

Lemma unframe_panics_iff_witness :
  (exists e, unframe [0xaa; 0x05; 0x01; 0x02] = Panic e)
  <-> [0xaa; 0x05; 0x01; 0x02] = []
      \/ ([0xaa; 0x05; 0x01; 0x02] !! 0%nat = Some 0xaa
          /\ (length [0xaa; 0x05; 0x01; 0x02] = 1%nat
              \/ exists n,
                  [0xaa; 0x05; 0x01; 0x02] !! 1%nat = Some n
                  /\ (n = 0 \/ n = 255
                      \/ Z.of_nat (length [0xaa; 0x05; 0x01; 0x02]) < n + 2))).
Proof.
  apply (unframe_panics_iff [0xaa; 0x05; 0x01; 0x02]).
  repeat constructor; unfold is_byte; lia.
Defined.

(** ** Errors of [Token.Transceive] *)

Lemma unframe_error_msg (resp p : bytes) (e : error) :
  unframe resp = Return p (Some e) ->
  e = Errorf "unknown response header byte"
  \/ e = Errorf "response checksum incorrect".
Proof.
  unfold unframe.
  destruct (resp !! 0%nat) as [h|]; [|discriminate].
  destruct (negb (h =? 0xaa)); [intros [= _ <-]; auto|].
  destruct (resp !! 1%nat) as [n|]; [|discriminate]. cbv zeta.
  destruct (resp !! checksum_index n) as [c|]; [|discriminate].
  destruct (2 <=? checksum_index n)%nat; [|discriminate].
  destruct (negb (c =? xor (subslice 2 (checksum_index n) resp)));
    [intros [= _ <-]; auto|discriminate].
Qed.

(** X8. Where the errors of [Token.Transceive] come from, over a card
    reader. An error returned by the call is the error of the keep-alive
    transmission, or the error of the transmission of the frame, or one of
    the two protocol errors (then with no reply bytes); the call makes no
    other error. And it panics only after both transmissions succeeded: a
    failing card never crashes it. *)
Theorem Transceive_error_origin {C : Type} `{CardDriver C}
    (data : bytes) (c : ScardTag C) :
  (forall c' resp e,
      Token.Transceive data c = (c', Return resp (Some e)) ->
      (Transmit keep_alive (card c)).2.2 = Some e
      \/ ((Transmit keep_alive (card c)).2.2 = None
          /\ (Transmit (frame data) (Transmit keep_alive (card c)).1).2.2 = Some e)
      \/ (resp = []
          /\ (e = Errorf "unknown response header byte"
              \/ e = Errorf "response checksum incorrect")))
  /\ (forall c' e,
        Token.Transceive data c = (c', Panic e) ->
        (Transmit keep_alive (card c)).2.2 = None
        /\ (Transmit (frame data) (Transmit keep_alive (card c)).1).2.2 = None
        /\ wire c' = wire c ++ [keep_alive; frame data]).
Proof.
  destruct (Transmit keep_alive (card c)) as [k [r [e0|]]] eqn:Hk; simpl.
  - assert (Hrun : Token.Transceive data c
                   = (mkScardTag k (wire c ++ [keep_alive]), Return [] (Some e0))).
    { unfold Token.Transceive, Transceive, ScardTag_Tag.
      rewrite (ScardTag_Transceive_failed (frame data) c k r e0 Hk). reflexivity. }
    rewrite Hrun. split.
    + intros c' resp e [= _ _ <-]. auto.
    + intros c' e He. discriminate He.
  - destruct (Transmit (frame data) k) as [k' [reply [e1|]]] eqn:Hd; simpl.
    + assert (Hrun : Token.Transceive data c
                     = (mkScardTag k' (wire c ++ [keep_alive; frame data]),
                        Return reply (Some e1))).
      { unfold Token.Transceive, Transceive, ScardTag_Tag.
        rewrite (ScardTag_Transceive_sent _ _ _ _ _ _ _ Hk Hd). reflexivity. }
      rewrite Hrun. split.
      * intros c' resp e [= _ _ <-]. auto.
      * intros c' e He. discriminate He.
    + rewrite (Token_Transceive_sent _ _ _ _ _ _ Hk Hd). split.
      * intros c' resp e [= _ He]. right. right.
        split; [exact (unframe_error_inv _ _ _ He)|exact (unframe_error_msg _ _ _ He)].
      * intros c' e [= <- _]. auto.
Qed.

Lemma Transceive_error_origin_witness :
  (Transmit keep_alive
     (card (reader [([0x90; 0x00], None); ([0x6a; 0x82], None)]))).2.2 = Some
    (Errorf "unknown response header byte")
  \/ ((Transmit keep_alive
         (card (reader [([0x90; 0x00], None); ([0x6a; 0x82], None)]))).2.2 = None
      /\ (Transmit (frame [0x10])
            (Transmit keep_alive
               (card (reader [([0x90; 0x00], None); ([0x6a; 0x82], None)]))).1).2.2
         = Some (Errorf "unknown response header byte"))
  \/ ([] = ([] : bytes)
      /\ (Errorf "unknown response header byte"
          = Errorf "unknown response header byte"
          \/ Errorf "unknown response header byte"
             = Errorf "response checksum incorrect")).
Proof.
  destruct (Transceive_error_origin [0x10]
              (reader [([0x90; 0x00], None); ([0x6a; 0x82], None)]))
    as [Herr _].
  apply (Herr (mkScardTag [] [keep_alive; frame [0x10]]) []
              (Errorf "unknown response header byte")).
  reflexivity.
Defined.

(** ** More on [checksum] *)

Lemma lor_lower_bound (x m : Z) : 0 <= x -> m <= Z.lor x m.
Proof.
  intros Hx.
  assert (Hsum : Z.lor x m = m + Z.ldiff x m).
  { rewrite Z.add_nocarry_lxor.
    - apply Z.bits_inj'. intros i _.
      rewrite Z.lor_spec, Z.lxor_spec, Z.ldiff_spec.
      destruct (Z.testbit x i), (Z.testbit m i); reflexivity.
    - apply Z.bits_inj'. intros i _.
      rewrite Z.land_spec, Z.ldiff_spec, Z.bits_0.
      destruct (Z.testbit x i), (Z.testbit m i); reflexivity. }
  assert (0 <= Z.ldiff x m) by (apply Z.ldiff_nonneg; auto).
  lia.
Qed.

(** X9. The checksum is a 16-bit value and never below the mask: for every
    input, [0x5115 <= checksum data <= 0xFFFF]; in particular it is never
    zero. *)
Theorem checksum_bounds (data : bytes) :
  0x5115 <= checksum data <= 0xffff.
Proof.
  pose proof (checksum_range data) as Hr.
  pose proof (checksum_loop_range data 0 ltac:(lia)) as Hl.
  split; [|lia]. unfold checksum. apply lor_lower_bound. lia.
Qed.

Lemma checksum_loop_app (a b : bytes) (acc : Z) :
  Nat.Even (length a) ->
  checksum_loop (a ++ b) acc = checksum_loop b (checksum_loop a acc).
Proof.
  revert acc. induction a as [|x|x y a IH] using list_pair_ind; intros acc He.
  - reflexivity.
  - destruct He as [k Hk]. simpl in Hk. lia.
  - simpl. apply IH. destruct He as [k Hk]. simpl in Hk.
    exists (k - 1)%nat. lia.
Qed.

(** X10. The checksum reads whole 16-bit words only. After a prefix of even
    length the loop goes on from the sum reached so far, and a single byte
    left at the end changes nothing: [checksum (data ++ [b]) = checksum data]
    for every [data] of even length and every [b]. *)
Theorem checksum_ignores_odd_byte (data : bytes) (b : Z) :
  Nat.Even (length data) ->
  checksum (data ++ [b]) = checksum data
  /\ forall more acc,
      checksum_loop (data ++ more) acc
      = checksum_loop more (checksum_loop data acc).
Proof.
  intros He. split.
  - unfold checksum. rewrite checksum_loop_app by assumption. reflexivity.
  - intros more acc. apply checksum_loop_app. assumption.
Qed.

Lemma checksum_ignores_odd_byte_witness :
  checksum ([0x12; 0x34; 0x56; 0x78] ++ [0x9a]) = checksum [0x12; 0x34; 0x56; 0x78]
  /\ forall more acc,
      checksum_loop ([0x12; 0x34; 0x56; 0x78] ++ more) acc
      = checksum_loop more (checksum_loop [0x12; 0x34; 0x56; 0x78] acc).
Proof.
  apply (checksum_ignores_odd_byte [0x12; 0x34; 0x56; 0x78] 0x9a).
  exists 2%nat. reflexivity.
Defined.

Lemma sum_Permutation (u v : list Z) :
  Permutation u v -> fold_right Z.add 0 u = fold_right Z.add 0 v.
Proof.
  induction 1 as [|x u v _ IH|x y u|u v w _ IH1 _ IH2]; simpl; lia.
Qed.

(** X11. The checksum does not see the order of the 16-bit words: two byte
    strings whose big-endian words are rearrangements of one another have
    the same checksum. *)
Theorem checksum_word_order (a b : bytes) :
  Forall is_byte a -> Forall is_byte b ->
  Permutation (be_words a) (be_words b) ->
  checksum a = checksum b.
Proof.
  intros Ha Hb Hperm. unfold checksum. f_equal.
  rewrite <- (Z.mod_small (checksum_loop a 0) 65536)
    by (apply checksum_loop_range; lia).
  rewrite <- (Z.mod_small (checksum_loop b 0) 65536)
    by (apply checksum_loop_range; lia).
  rewrite !checksum_loop_sum by assumption.
  rewrite (sum_Permutation _ _ Hperm). reflexivity.
Qed.

Lemma checksum_word_order_witness :
  checksum [0x12; 0x34; 0xab; 0xcd] = checksum [0xab; 0xcd; 0x12; 0x34].
Proof.
  apply (checksum_word_order [0x12; 0x34; 0xab; 0xcd] [0xab; 0xcd; 0x12; 0x34]).
  - repeat constructor; unfold is_byte; lia.
  - repeat constructor; unfold is_byte; lia.
  - apply perm_swap.
Defined.

(** ** More on [BurnSeed] *)

Lemma lxor_twice (key : Z) (l : bytes) :
  map (fun b => Z.lxor b key) (map (fun b => Z.lxor b key) l) = l.
Proof.
  induction l as [|b l IH]; simpl; [reflexivity|].
  rewrite IH, Z.lxor_assoc, Z.lxor_nilpotent, Z.lxor_0_r. reflexivity.
Qed.

(** X12. What the token can read back from the burn command. Once
    [GetInfo] has answered with a key at offset 5, the payload [BurnSeed]
    sends is five bytes longer than the seed and starts with [0x18]; XORing
    the rest with the key once more gives back the seed, the bytes 6 and 30,
    and two bytes that are the big-endian encoding of [checksum(seed)]. *)
Theorem burn_payload_decodes {T : Type} `{Tag T}
    (seed info : bytes) (t t1 : T) (key : Z) :
  Token.GetInfo t = (t1, Return info None) ->
  info !! 5%nat = Some key ->
  exists payload hi lo,
    Token.BurnSeed seed t = Token.Transceive payload t1
    /\ length payload = (length seed + 5)%nat
    /\ payload !! 0%nat = Some 0x18
    /\ map (fun b => Z.lxor b key) (drop 1 payload) = seed ++ [6; 30; hi; lo]
    /\ is_byte hi /\ is_byte lo
    /\ be_uint16 hi lo = checksum seed.
Proof.
  intros Hinfo Hkey. pose proof (checksum_range seed) as Hr.
  exists (burn_payload key seed), (checksum seed / 256), (checksum seed mod 256).
  assert (Hlo : is_byte (checksum seed mod 256)) by (apply Z.mod_pos_bound; lia).
  repeat split.
  - rewrite (BurnSeed_after_info seed info t t1 Hinfo), Hkey. reflexivity.
  - unfold burn_payload, burn_buffer. simpl.
    rewrite length_map, length_app. simpl. lia.
  - unfold burn_payload. simpl. rewrite drop_0. apply lxor_twice.
  - apply Z.div_pos; lia.
  - apply Z.div_lt_upper_bound; lia.
  - apply Hlo.
  - apply Hlo.
  - rewrite be_uint16_byte by assumption.
    symmetry. apply Z.div_mod. lia.
Qed.

Lemma burn_payload_decodes_witness :
  exists payload hi lo,
    Token.BurnSeed [0x11; 0x22]
      (reader [([0x90; 0x00], None);
               ([0xaa; 0x07; 0; 0; 0; 0; 0; 0x2a; 0x2a], None)])
    = Token.Transceive payload
        (mkScardTag [] [keep_alive; [0x86; 0x02; 0x10; 0x10]])
    /\ length payload = (length [0x11; 0x22] + 5)%nat
    /\ payload !! 0%nat = Some 0x18
    /\ map (fun b => Z.lxor b 0x2a) (drop 1 payload)
       = [0x11; 0x22] ++ [6; 30; hi; lo]
    /\ is_byte hi /\ is_byte lo
    /\ be_uint16 hi lo = checksum [0x11; 0x22].
Proof.
  apply (burn_payload_decodes [0x11; 0x22] [0; 0; 0; 0; 0; 0x2a]
           (reader [([0x90; 0x00], None);
                    ([0xaa; 0x07; 0; 0; 0; 0; 0; 0x2a; 0x2a], None)])
           (mkScardTag [] [keep_alive; [0x86; 0x02; 0x10; 0x10]]) 0x2a);
    reflexivity.
Defined.

Lemma xor_keyed (key : Z) (l : bytes) :
  xor (map (fun b => Z.lxor b key) l)
  = if Nat.even (length l) then xor l else Z.lxor (xor l) key.
Proof.
  induction l as [|b l IH]; [reflexivity|].
  cbn [map length]. rewrite !xor_cons, IH, Nat.even_succ, <- Nat.negb_even.
  destruct (Nat.even (length l)); cbn [negb].
  - rewrite !Z.lxor_assoc. f_equal. apply Z.lxor_comm.
  - rewrite Z.lxor_assoc, (Z.lxor_comm key), Z.lxor_assoc, Z.lxor_nilpotent.
    rewrite Z.lxor_0_r. reflexivity.
Qed.

(** X13. For a seed of even length the envelope checksum of the burn frame
    does not depend on the session key: the frame ends with
    [0x18 xor fold(seed || 6 || 30 || checksum)], the fold of the buffer
    before it was keyed. *)
Theorem burn_frame_checksum_keyless (key : Z) (seed : bytes) :
  Nat.Even (length seed) ->
  frame (0x18 :: map (fun b => Z.lxor b key)
                   (AppendUint16 (seed ++ [6; 30]) (checksum seed)))
  = [0x86; (Z.of_nat (length seed) + 6) mod 256]
    ++ (0x18 :: map (fun b => Z.lxor b key)
                  (AppendUint16 (seed ++ [6; 30]) (checksum seed)))
    ++ [Z.lxor 0x18 (xor (AppendUint16 (seed ++ [6; 30]) (checksum seed)))].
Proof.
  intros He.
  assert (Hlen : length (AppendUint16 (seed ++ [6; 30]) (checksum seed))
                 = (length seed + 4)%nat).
  { unfold AppendUint16. rewrite !length_app. cbn [length]. lia. }
  unfold frame. f_equal.
  - f_equal. cbn [length]. rewrite length_map, Hlen. do 2 f_equal. lia.
  - f_equal. rewrite xor_cons, xor_keyed, Hlen.
    replace (Nat.even (length seed + 4)) with true; [reflexivity|].
    symmetry. apply Nat.even_spec. destruct He as [k Hk].
    exists (k + 2)%nat. lia.
Qed.

Lemma burn_frame_checksum_keyless_witness :
  frame (0x18 :: map (fun b => Z.lxor b 0x2a)
                   (AppendUint16 ([0x11; 0x22] ++ [6; 30]) (checksum [0x11; 0x22])))
  = [0x86; (Z.of_nat (length [0x11; 0x22]) + 6) mod 256]
    ++ (0x18 :: map (fun b => Z.lxor b 0x2a)
                  (AppendUint16 ([0x11; 0x22] ++ [6; 30]) (checksum [0x11; 0x22])))
    ++ [Z.lxor 0x18
          (xor (AppendUint16 ([0x11; 0x22] ++ [6; 30]) (checksum [0x11; 0x22])))].
Proof.
  apply (burn_frame_checksum_keyless 0x2a [0x11; 0x22]).
  exists 1%nat. reflexivity.
Defined.

(** The three ways a [Token.Transceive] over a card reader can go. *)
Lemma Token_Transceive_cases {C : Type} `{CardDriver C}
    (data : bytes) (c : ScardTag C) :
  (exists k e,
      Token.Transceive data c
      = (mkScardTag k (wire c ++ [keep_alive]), Return [] (Some e)))
  \/ (exists k reply e,
        Token.Transceive data c
        = (mkScardTag k (wire c ++ [keep_alive; frame data]),
           Return reply (Some e)))
  \/ (exists k reply,
        Token.Transceive data c
        = (mkScardTag k (wire c ++ [keep_alive; frame data]), unframe reply)).
Proof.
  destruct (Transmit keep_alive (card c)) as [k [r [e0|]]] eqn:Hk.
  - left. exists k, e0. unfold Token.Transceive, Transceive, ScardTag_Tag.
    rewrite (ScardTag_Transceive_failed (frame data) c k r e0 Hk). reflexivity.
  - destruct (Transmit (frame data) k) as [k' [reply [e1|]]] eqn:Hd.
    + right. left. exists k', reply, e1.
      unfold Token.Transceive, Transceive, ScardTag_Tag.
      rewrite (ScardTag_Transceive_sent _ _ _ _ _ _ _ Hk Hd). reflexivity.
    + right. right. exists k', reply.
      apply (Token_Transceive_sent _ _ _ _ _ _ Hk Hd).
Qed.

(** X14. Everything [BurnSeed] can put on the wire. One call sends the
    keep-alive alone, or the keep-alive and the [GetInfo] frame, or those
    and a second keep-alive, or those three and the burn frame keyed with
    byte 5 of the info payload that this very call received. Nothing else
    is ever sent: the seed leaves the host only in the keyed burn frame, and
    only after a [GetInfo] that succeeded. *)
Theorem BurnSeed_traffic {C : Type} `{CardDriver C}
    (seed : bytes) (c : ScardTag C) :
  exists sent,
    wire (Token.BurnSeed seed c).1 = wire c ++ sent
    /\ (sent = [keep_alive]
        \/ sent = [keep_alive; frame [0x10]]
        \/ sent = [keep_alive; frame [0x10]; keep_alive]
        \/ exists info key,
            (Token.GetInfo c).2 = Return info None
            /\ info !! 5%nat = Some key
            /\ sent = [keep_alive; frame [0x10]; keep_alive;
                       frame (0x18 :: map (fun b => Z.lxor b key)
                                        (AppendUint16 (seed ++ [6; 30])
                                           (checksum seed)))]).
Proof.
  assert (Hstop : forall c1 o,
             Token.GetInfo c = (c1, o) ->
             (forall info, o = Return info None -> info !! 5%nat = None) ->
             (Token.BurnSeed seed c).1 = c1).
  { intros c1 o Hget Hno. unfold Token.BurnSeed. rewrite Hget.
    destruct o as [info [e|]|e]; try reflexivity.
    rewrite (Hno info eq_refl). reflexivity. }
  destruct (Token_Transceive_cases [0x10] c)
    as [(k & e & Hget)|[(k & reply & e & Hget)|(k & reply & Hget)]];
    fold (Token.GetInfo c) in Hget.
  - exists [keep_alive]. split; [|auto].
    rewrite (Hstop _ _ Hget); [reflexivity|]. intros info Hi. discriminate Hi.
  - exists [keep_alive; frame [0x10]]. split; [|auto].
    rewrite (Hstop _ _ Hget); [reflexivity|]. intros info Hi. discriminate Hi.
  - destruct (unframe reply) as [info [e|]|e] eqn:Hun.
    1, 3: exists [keep_alive; frame [0x10]]; split; [|auto];
      rewrite (Hstop _ _ Hget); [reflexivity|]; intros info' Hi; discriminate Hi.
    destruct (info !! 5%nat) as [key|] eqn:Hkey.
    2: { exists [keep_alive; frame [0x10]]. split; [|auto].
         rewrite (Hstop _ _ Hget); [reflexivity|].
         intros info' [= <-]. assumption. }
    rewrite (BurnSeed_after_info seed info c _ Hget), Hkey.
    unfold burn_payload. rewrite <- AppendUint16_checksum.
    set (payload := 0x18 :: map (fun b => Z.lxor b key)
                              (AppendUint16 (seed ++ [6; 30]) (checksum seed))).
    destruct (Token_Transceive_cases payload
                (mkScardTag k (wire c ++ [keep_alive; frame [0x10]])))
      as [(k' & e & Hrun)|[(k' & reply' & e & Hrun)|(k' & reply' & Hrun)]];
      rewrite Hrun; simpl; rewrite <- app_assoc; simpl.
    + exists [keep_alive; frame [0x10]; keep_alive]. auto.
    + eexists. split; [reflexivity|]. do 3 right. exists info, key.
      rewrite Hget. auto.
    + eexists. split; [reflexivity|]. do 3 right. exists info, key.
      rewrite Hget. auto.
Qed.

(** ** [Token.Transceive] and the memory of its caller *)

(** X15. [Token.Transceive] leaves the memory of its caller alone: the
    frame is built in arrays of its own ([append] never writes into the
    array of [data]), so every backing array that existed before the call
    holds the same bytes after it, and [data] denotes the same bytes. *)
Theorem Transceive_keeps_data {T : Type} `{Tag T} (growslice : nat -> nat -> nat)
    (data : Mem.slice) (t : T) (h : Mem.heap) :
  Mem.valid h data = true ->
  let h' := (Mem.Transceive growslice data t h).1.2 in
  take (length h) h' = h /\ Mem.load h' data = Mem.load h data.
Proof.
  intros Hv. destruct (Mem.Transceive growslice data t h) as [[t' h'] r] eqn:E.
  simpl.
  pose proof (Transceive_frame growslice (length h) _ _ _ _ _ _ (le_n _) E) as U.
  split; [apply unchanged_below_take | apply unchanged_below_load]; assumption.
Qed.

Lemma Transceive_keeps_data_witness :
  let h := [[0x00; 0x10; 0x00; 0x00]] in
  let data := Mem.mkSlice 0 1 1 3 in
  let h' :=
    (Mem.Transceive (fun _ need => (2 * need)%nat) data
       (reader [([0x90; 0x00], None); ([0xaa; 0x02; 0x01; 0x01], None)]) h).1.2 in
  take (length h) h' = h /\ Mem.load h' data = Mem.load h data.
Proof.
  apply (Transceive_keeps_data (fun _ need => (2 * need)%nat)
           (Mem.mkSlice 0 1 1 3)
           (reader [([0x90; 0x00], None); ([0xaa; 0x02; 0x01; 0x01], None)])
           [[0x00; 0x10; 0x00; 0x00]]).
  reflexivity.
Defined.

(** ** The connect loop *)

Section ConnectLoop.
Context {W Card : Type} `{Connector W Card}.

Lemma connect_loop_done (fuel : nat) (readers : list string)
    (card : Card) (err : option error) (w : W) :
  connect_loop fuel readers (Some card) err w = Some (w, (Some card, err)).
Proof. destruct fuel; reflexivity. Qed.

(** X16. With no reader to try, the connect loop never ends: whatever the
    number of passes allowed, it is still running, and it has not called
    [Connect] at all. *)
Theorem connect_loop_no_readers (fuel : nat) (err : option error) (w : W) :
  connect_loop fuel [] None err w = None
  /\ connect_pass [] None err w = (w, (None, err)).
Proof.
  split; [|reflexivity].
  induction fuel as [|fuel IH]; [reflexivity|]. simpl. exact IH.
Qed.

Lemma connect_pass_clean (readers : list string)
    (card : option Card) (err : option error) (w : W) :
  connects_cleanly ->
  (card = None \/ err = None) ->
  let r := (connect_pass readers card err w).2 in
  r.1 = None \/ r.2 = None.
Proof.
  intros Hclean. revert card err w.
  induction readers as [|reader readers IH]; intros card err w Hin; simpl.
  - exact Hin.
  - destruct (Hclean reader w) as [[cd Hc]|[e Hc]];
      destruct (Connect reader w) as [w' [card' err']]; simpl in Hc;
      injection Hc as -> ->.
    + simpl. auto.
    + apply IH. auto.
Qed.

(** X17. The connect loop hands on a card or nothing. With a driver that
    answers with a card and no error, or with an error and no card, a loop
    started without a card can only end holding a card and with [err] nil:
    [BurnSeed] is never reached without a connection. *)
Theorem connect_loop_ends_connected (fuel : nat) (readers : list string)
    (err err' : option error) (card' : option Card) (w w' : W) :
  connects_cleanly ->
  connect_loop fuel readers None err w = Some (w', (card', err')) ->
  (exists card, card' = Some card) /\ err' = None.
Proof.
  intros Hclean. revert err w.
  induction fuel as [|fuel IH]; intros err w; simpl; [discriminate|].
  pose proof (connect_pass_clean readers None err w Hclean (or_introl eq_refl))
    as Hpass.
  destruct (connect_pass readers None err w) as [w1 [card1 err1]].
  simpl in Hpass. destruct card1 as [card|].
  - rewrite connect_loop_done. intros [= <- <- <-].
    destruct Hpass as [Hp|Hp]; [discriminate Hp|]. eauto.
  - apply IH.
Qed.
End ConnectLoop.

Lemma Desk_connects_cleanly : @connects_cleanly Desk string _.
Proof.
  intros reader w. unfold Connect, Desk_Connector. simpl.
  destruct (bool_decide (reader ∈ tokens w)); eauto.
Qed.

Lemma connect_loop_ends_connected_witness :
  (exists card, Some "ACS ACR122U 01" = Some card) /\ (None : option error) = None.
Proof.
  apply (connect_loop_ends_connected 3
           ["Yubico 00"; "ACS ACR122U 01"] None None (Some "ACS ACR122U 01")
           (mkDesk ["ACS ACR122U 01"] [])
           (mkDesk ["ACS ACR122U 01"] ["Yubico 00"; "ACS ACR122U 01"])
           Desk_connects_cleanly).
  vm_compute. reflexivity.
Defined.
